(** * tbdiags: a diagnostics collection, its error views and its ordering

    A shallow embedding of package [tbdiags] (diagnostic.go,
    severity_string.go, diagnostics.go).  Go slices keep the
    difference between the nil slice and an empty one, a panic is an
    explicit result, and [sort.Interface] is a class whose instance for
    [sortDiagnostics] carries the package's own [Len], [Less] and [Swap];
    [sort.Stable] is the standard library's algorithm run on that
    instance. *)

From Stdlib Require Import ZArith Ascii String OrderedTypeEx.
From stdpp Require Import base list sorting strings pretty.

(** ** Go values used by the package *)

(** The line feed written [\n] in the Go format strings. *)
Definition nl : string := String (ascii_of_nat 10) EmptyString.

(** A Go slice: the nil slice is a value of its own, apart from an
    allocated slice of length 0. *)
Inductive slice (A : Type) : Type :=
  | Nil
  | slice_of (l : list A).
Arguments Nil {A}.
Arguments slice_of {A} l.

Definition elems {A} (s : slice A) : list A :=
  match s with
  | Nil => []
  | slice_of l => l
  end.

Definition len {A} (s : slice A) : nat := length (elems s).

(** The builtin [append(s, xs...)]: appending nothing gives [s] back
    (so nil stays nil), anything else gives an allocated slice. *)
Definition append {A} (s : slice A) (xs : list A) : slice A :=
  match xs with
  | [] => s
  | _ :: _ => slice_of (elems s ++ xs)
  end.

(** The slice that holds the elements [l] and is nil when there are
    none, as a slice grown from nil by [append] is. *)
Definition slice_or_nil {A} (l : list A) : slice A :=
  match l with
  | [] => Nil
  | _ :: _ => slice_of l
  end.

(** A call either returns or panics with a message. *)
Inductive result (A : Type) : Type :=
  | Ok (a : A)
  | Panic (msg : string).
Arguments Ok {A} a.
Arguments Panic {A} msg.

(** Sequencing: a panic ends the call.  With these instances stdpp's
    [x ← m; k] reads as it does for any monad. *)
#[global] Instance result_ret : MRet result := λ A a, Ok a.
#[global] Instance result_bind : MBind result := λ A B k m,
  match m with
  | Ok a => k a
  | Panic msg => Panic msg
  end.

(** [s[i]]: a read out of range panics. *)
Definition index {A} (s : list A) (i : nat) : result A :=
  match s !! i with
  | Some x => Ok x
  | None => Panic "runtime error: index out of range"
  end.

(** [strings.Count(s, sep)] for a one-byte [sep]: the number of bytes of
    [s] equal to it. *)
Fixpoint strings_Count (s : string) (sep : ascii) : nat :=
  match s with
  | EmptyString => 0
  | String c s' => (if decide (c = sep) then 1 else 0) + strings_Count s' sep
  end.

(** ** diagnostic.go *)

(** [type Severity rune] with its two constants, [Error = 'E'] and
    [Warning = 'W']: the closed two-valued classification of the data
    model. *)
Inductive Severity : Set :=
  | Error
  | Warning.

(** severity_string.go: the generated [String] method on the two
    constants (its default case is for a rune that is neither). *)
Definition Severity_String (i : Severity) : string :=
  match i with
  | Error => "Error"
  | Warning => "Warning"
  end.

(** The rune of each constant, [Error Severity = 'E'] and
    [Warning Severity = 'W']. *)
Definition Severity_rune (i : Severity) : Z :=
  match i with
  | Error => Z.of_N (N_of_ascii "E")
  | Warning => Z.of_N (N_of_ascii "W")
  end.

(** severity_string.go on any rune, the default case included:
    [strconv.FormatInt(int64(i), 10)] is the decimal numeral of [i], with
    a minus sign when it is negative. *)
Definition Severity_String_rune (i : Z) : string :=
  if decide (i = 69)%Z then "Error"
  else if decide (i = 87)%Z then "Warning"
  else "Severity(" +:+ pretty i +:+ ")".

(** The constant indices [x[Error-69]] and [x[Warning-87]] of the
    generated guard [func _()], into [var x [1]struct{}]: an index that is
    not 0 does not compile. *)
Definition Severity_guard : list Z :=
  [Severity_rune Error - 69; Severity_rune Warning - 87]%Z.

Record Description : Set := {
  Address : string;
  Summary : string;
  Detail : string;
}.

(** Modelled from the spec: the declarations of [SourceRange] and
    [SourcePos] are not among the sources.  The code reads [Filename],
    [Start.Byte] and [End.Byte] and compares whole ranges with [!=]; the
    spec names line and column offsets next to the byte offset. *)
Record SourcePos : Set := {
  Line : Z;
  Column : Z;
  Byte : Z;
}.

Record SourceRange : Set := {
  Filename : string;
  Start : SourcePos;
  End : SourcePos;
}.

(** The two pointers of [Source]; [None] is the nil pointer. *)
Record Source : Set := {
  Subject : option SourceRange;
  Context : option SourceRange;
}.

#[global] Instance Severity_eq_dec : EqDecision Severity.
Proof. solve_decision. Defined.
#[global] Instance SourcePos_eq_dec : EqDecision SourcePos.
Proof. solve_decision. Defined.
#[global] Instance SourceRange_eq_dec : EqDecision SourceRange.
Proof. solve_decision. Defined.

(** The interface [sort.Interface] of the standard library. *)
Class sort_Interface (X : Type) : Type := {
  Len : X → nat;
  Less : X → nat → nat → result bool;
  Swap : X → nat → nat → result X;
}.

(** ** The standard library's [sort.Stable]

    [sort.Stable(data)] reaches the data through [Len], [Less] and [Swap]
    only.  It is the library's algorithm: insertion sort on blocks of 20
    elements, then passes that merge neighbouring blocks in place with
    [symMerge], which finds its cut by binary search and exchanges the two
    middle runs with [rotate].  A loop that is not a counted [for] takes a
    bound on its iterations; the bound is never reached (the results below
    are all [Ok]). *)

(** A loop that did not end within the bound on its iterations. *)
Definition out_of_fuel {A} : result A := Panic "out of fuel".

(** A [for] loop whose counter takes the values of [range] in turn. *)
Fixpoint for_each {X} (range : list nat) (body : nat → X → result X)
    (data : X) : result X :=
  match range with
  | [] => Ok data
  | i :: range' =>
      data' ← body i data;
      for_each range' body data'
  end.

Section Stable.
Context {X : Type} `{!sort_Interface X}.

(** The inner loop of [insertionSort],
    [for j := i; j > a && data.Less(j, j-1); j-- { data.Swap(j, j-1) }]. *)
Fixpoint insertionSort_inner (data : X) (a j : nat) : result X :=
  match j with
  | 0 => Ok data
  | S j' =>
      if decide (a < j) then
        less ← Less data j j';
        if less : bool then
          data' ← Swap data j j';
          insertionSort_inner data' a j'
        else Ok data
      else Ok data
  end.

(** [for i := a + 1; i < b; i++] around the inner loop. *)
Definition insertionSort (data : X) (a b : nat) : result X :=
  for_each (seq (a + 1) (b - (a + 1)))
    (λ i data, insertionSort_inner data a i) data.

(** [for i := 0; i < n; i++ { data.Swap(a+i, b+i) }] *)
Definition swapRange (data : X) (a b n : nat) : result X :=
  for_each (seq 0 n) (λ i data, Swap data (a + i) (b + i)) data.

(** [rotate(data, a, m, b)] exchanges the runs [data[a:m]] and
    [data[m:b]].  With [i := m - a] and [j := b - m], its loop is
    [for i != j { if i > j { swapRange(data, m-i, m, j); i -= j }
                  else { swapRange(data, m-i, m+j-i, i); j -= i } }],
    followed by [swapRange(data, m-i, m, i)]. *)
Fixpoint rotate_loop (fuel : nat) (data : X) (m i j : nat) : result X :=
  if decide (i ≠ j) then
    match fuel with
    | 0 => out_of_fuel
    | S fuel' =>
        if decide (j < i) then
          data' ← swapRange data (m - i) m j;
          rotate_loop fuel' data' m (i - j) j
        else
          data' ← swapRange data (m - i) (m + j - i) i;
          rotate_loop fuel' data' m i (j - i)
    end
  else swapRange data (m - i) m i.

Definition rotate (data : X) (a m b : nat) : result X :=
  rotate_loop (b - a) data m (m - a) (b - m).

(** The binary searches of [symMerge],
    [for i < j { h := int(uint(i+j) >> 1);
                 if test(h) { i = h + 1 } else { j = h } }],
    giving the final [i]. *)
Fixpoint search (fuel : nat) (test : nat → result bool) (i j : nat)
    : result nat :=
  if decide (i < j) then
    match fuel with
    | 0 => out_of_fuel
    | S fuel' =>
        let h := (i + j) / 2 in
        t ← test h;
        if t : bool then search fuel' test (h + 1) j
        else search fuel' test i h
    end
  else Ok i.

(** [symMerge(data, a, m, b)] merges the sorted runs [data[a:m]] and
    [data[m:b]].  A run of one element is put in its place by binary
    search and neighbour exchanges.  Otherwise, with [mid] the middle of
    [a, b) and [n := mid + m], a binary search finds [start], the runs
    [data[start:m]] and [data[m:end]] are rotated, and the two halves
    [data[a:mid]] and [data[mid:b]] are merged by recursive calls; [fuel]
    bounds the depth of the recursion. *)
Fixpoint symMerge (fuel : nat) (data : X) (a m b : nat) : result X :=
  match fuel with
  | 0 => out_of_fuel
  | S fuel' =>
      if decide (m - a = 1) then
        i ← search (b - m) (λ h, Less data h a) m b;
        for_each (seq a (i - 1 - a)) (λ k data, Swap data k (k + 1)) data
      else if decide (b - m = 1) then
        i ← search (m - a)
               (λ h, less ← Less data m h; Ok (negb less)) a m;
        for_each (reverse (seq (i + 1) (m - i)))
          (λ k data, Swap data k (k - 1)) data
      else
        let mid := (a + b) / 2 in
        let n := mid + m in
        let start := if decide (mid < m) then n - b else a in
        let r := if decide (mid < m) then mid else m in
        let p := n - 1 in
        start ← search (r - start)
                   (λ c, less ← Less data (p - c) c; Ok (negb less)) start r;
        let end_ := n - start in
        data ← (if decide (start < m ∧ m < end_)
                then rotate data start m end_ else Ok data);
        data ← (if decide (a < start ∧ start < mid)
                then symMerge fuel' data a start mid else Ok data);
        if decide (mid < end_ ∧ end_ < b)
        then symMerge fuel' data mid end_ b else Ok data
  end.

(** The first loop of [stable(data, n)], with [a, b := 0, blockSize]:
    [for b <= n { insertionSort(data, a, b); a = b; b += blockSize }],
    followed by [insertionSort(data, a, n)]. *)
Fixpoint stable_blocks (fuel : nat) (data : X) (a b n blockSize : nat)
    : result X :=
  if decide (b ≤ n) then
    match fuel with
    | 0 => out_of_fuel
    | S fuel' =>
        data' ← insertionSort data a b;
        stable_blocks fuel' data' b (b + blockSize) n blockSize
    end
  else insertionSort data a n.

(** One pass over the pairs of neighbouring blocks, with
    [a, b = 0, 2*blockSize]:
    [for b <= n { symMerge(data, a, a+blockSize, b); a = b; b += 2*blockSize }],
    followed by [if m := a + blockSize; m < n { symMerge(data, a, m, n) }]. *)
Fixpoint stable_pass (fuel : nat) (data : X) (a b n blockSize : nat)
    : result X :=
  if decide (b ≤ n) then
    match fuel with
    | 0 => out_of_fuel
    | S fuel' =>
        data' ← symMerge (b - a) data a (a + blockSize) b;
        stable_pass fuel' data' b (b + 2 * blockSize) n blockSize
    end
  else
    let m := a + blockSize in
    if decide (m < n) then symMerge (n - a) data a m n else Ok data.

(** The second loop of [stable], [for blockSize < n], a pass and then
    [blockSize *= 2]. *)
Fixpoint stable_passes (fuel : nat) (data : X) (n blockSize : nat)
    : result X :=
  if decide (blockSize < n) then
    match fuel with
    | 0 => out_of_fuel
    | S fuel' =>
        data' ← stable_pass n data 0 (2 * blockSize) n blockSize;
        stable_passes fuel' data' n (2 * blockSize)
    end
  else Ok data.

(** [stable(data, n)], with [blockSize := 20]. *)
Definition stable (data : X) (n : nat) : result X :=
  let blockSize := 20 in
  data' ← stable_blocks n data 0 blockSize n blockSize;
  stable_passes n data' n blockSize.

(** [func Stable(data Interface) { stable(data, data.Len()) }] *)
Definition sort_Stable (data : X) : result X := stable data (Len data).

End Stable.

(** What [insertionSort] computes, on lists.  [move_left less x r] is one
    run of the inner loop: [r] holds the elements before [x], the nearest
    first, and [x] moves over those it is less than.
    [insertion_sorted less l] runs it for each element in turn; it is the
    reference the result of [sort.Stable] is compared to. *)
Section StableInsertion.
Context {A : Type} (less : A → A → bool).

Fixpoint move_left (x : A) (r : list A) : list A :=
  match r with
  | [] => [x]
  | y :: r' => if less x y then y :: move_left x r' else x :: r
  end.

Definition insertion_sorted (l : list A) : list A :=
  reverse (fold_left (λ r x, move_left x r) l []).

(** [x] may stand before [y]: [y] is not less than [x]. *)
Definition may_precede (x y : A) : Prop := less y x = false.

(** [x] and [y] are tied: neither is less than the other. *)
Definition tied (x y : A) : Prop := less x y = false ∧ less y x = false.

#[global] Instance tied_dec (x y : A) : Decision (tied x y).
Proof. unfold tied. apply _. Defined.

(** [w] is [u] sorted stably: in order, with the same elements, those
    tied with any given one in the order they have in [u]. *)
Definition stable_sort_of (u w : list A) : Prop :=
  StronglySorted may_precede w ∧
  w ≡ₚ u ∧
  ∀ z, filter (tied z) w = filter (tied z) u.

(** The list is made of sorted blocks of [bs] elements, the last one
    possibly shorter: the state between two passes of [stable]. *)
Definition blocks (bs : nat) (l : list A) : Prop :=
  ∀ k, StronglySorted may_precede (take bs (drop (k * bs) l)).

End StableInsertion.

(** Comparisons in sequence, the first that is not [Eq] deciding. *)
Definition cmp_lex (c1 c2 : comparison) : comparison :=
  match c1 with
  | Eq => c2
  | _ => c1
  end.

(** A comparison that orders its arguments as a total preorder does:
    swapping the arguments gives the opposite answer, and not being
    greater is transitive. *)
Definition weak_order {A} (c : A → A → comparison) : Prop :=
  (∀ x y, c y x = CompOpp (c x y)) ∧
  (∀ x y z, c x y ≠ Gt → c y z ≠ Gt → c x z ≠ Gt).

(** ** diagnostics.go *)

Section Tbdiags.

(** A Go [error] value is any value with an [Error() string] method. *)
Variable error : Type.
Variable error_Error : error → string.

(** [filepath.Separator], fixed by the target system: ['/'] or ['\']. *)
Variable filepath_Separator : ascii.

(** A value of interface [Diagnostic] is either of a type written by a
    user of the package, seen through its three methods only, or the
    package's own [nativeError], which a type assertion tells apart. *)
Inductive Diagnostic : Type :=
  | diag (severity : Severity) (description : Description) (source : Source)
  | nativeError (err : error).

(** Modelled from the spec: the methods of [nativeError] are not among the
    sources.  An error wrapped as a diagnostic has severity Error, the
    error's message as its summary and no source location. *)
Definition nativeError_Severity (e : error) : Severity := Error.
Definition nativeError_Description (e : error) : Description :=
  {| Address := ""; Summary := error_Error e; Detail := "" |}.
Definition nativeError_Source (e : error) : Source :=
  {| Subject := None; Context := None |}.

Definition Diagnostic_Severity (d : Diagnostic) : Severity :=
  match d with
  | diag severity _ _ => severity
  | nativeError e => nativeError_Severity e
  end.

Definition Diagnostic_Description (d : Diagnostic) : Description :=
  match d with
  | diag _ description _ => description
  | nativeError e => nativeError_Description e
  end.

Definition Diagnostic_Source (d : Diagnostic) : Source :=
  match d with
  | diag _ _ source => source
  | nativeError e => nativeError_Source e
  end.

(** [type Diagnostics []Diagnostic] *)
Definition Diagnostics : Type := slice Diagnostic.

(** The two error types that hold a [Diagnostics]. *)
Inductive ErrorView : Type :=
  | diagnosticsAsError (diags : Diagnostics)
  | NonFatalError (diags : Diagnostics).

(** [HasErrors]: some diagnostic has severity Error. *)
Definition HasErrors (diags : Diagnostics) : bool :=
  existsb (λ d, bool_decide (Diagnostic_Severity d = Error)) (elems diags).

(** [Err], [ErrWithWarnings], [NonFatalErr]: [None] is the nil error. *)
Definition Err (diags : Diagnostics) : option ErrorView :=
  if negb (HasErrors diags) then None
  else Some (diagnosticsAsError diags).

Definition ErrWithWarnings (diags : Diagnostics) : option ErrorView :=
  if decide (len diags = 0) then None
  else if HasErrors diags then Err diags
  else Some (NonFatalError diags).

Definition NonFatalErr (diags : Diagnostics) : option ErrorView :=
  if decide (len diags = 0) then None
  else Some (NonFatalError diags).

(** *** The error views' messages *)

(** [diagnosticsAsError.Error]. *)
Definition diagnosticsAsError_Error (dae : Diagnostics) : string :=
  let diags := dae in
  match elems diags with
  | [] => "no errors"
  | [d] =>
      let desc := Diagnostic_Description d in
      if decide (Detail desc = "") then Summary desc
      else Summary desc +:+ ": " +:+ Detail desc
  | _ =>
      fold_left
        (λ ret d,
           let desc := Diagnostic_Description d in
           if decide (Detail desc = "")
           then ret +:+ nl +:+ "- " +:+ Summary desc
           else ret +:+ nl +:+ "- " +:+ Summary desc +:+ ": " +:+ Detail desc)
        (elems dae)
        (pretty (len diags) +:+ " problems:" +:+ nl)
  end.

(** [NonFatalError.Error]. *)
Definition NonFatalError_Error (woe : Diagnostics) : string :=
  let diags := woe in
  match elems diags with
  | [] => "no errors or warnings"
  | [d] =>
      let desc := Diagnostic_Description d in
      if decide (Detail desc = "") then Summary desc
      else Summary desc +:+ ": " +:+ Detail desc
  | _ =>
      fold_left
        (λ ret d,
           let desc := Diagnostic_Description d in
           if decide (Detail desc = "")
           then ret +:+ nl +:+ "- " +:+ Summary desc
           else ret +:+ nl +:+ "- " +:+ Summary desc +:+ ": " +:+ Detail desc)
        (elems woe)
        (if HasErrors diags
         then pretty (len diags) +:+ " problems:" +:+ nl
         else pretty (len diags) +:+ " warnings:" +:+ nl)
  end.

(** The [Error() string] method of either view. *)
Definition ErrorView_Error (e : ErrorView) : string :=
  match e with
  | diagnosticsAsError diags => diagnosticsAsError_Error diags
  | NonFatalError diags => NonFatalError_Error diags
  end.

(** [diagnosticsAsError.WrappedErrors]: [errs] starts as the nil slice. *)
Definition WrappedErrors (dae : Diagnostics) : slice error :=
  fold_left
    (λ errs d,
       match d with
       | nativeError err => append errs [err]
       | diag _ _ _ => errs
       end)
    (elems dae) Nil.

(** *** Append *)

(** Modelled from the spec: package errwrap is not among the sources.
    [errwrap_GetType err] is the findings collection that
    [errwrap.GetType(err, Diagnostics(nil))] extracts from an error that
    structurally wraps one, and [None] when
    [errwrap.ContainsType(err, Diagnostics(nil))] is false. *)
Variable errwrap_GetType : error → option Diagnostics.

(** The dynamic shapes an argument of [Append(new ...interface{})] can
    have, in the order of the type switch.  [item_multierror None] is a
    nil [*multierror.Error]; [item_other T] is a value of any other type,
    [T] being the name [%T] prints. *)
Inductive Item : Type :=
  | item_nil
  | item_Diagnostic (ti : Diagnostic)
  | item_Diagnostics (ti : Diagnostics)
  | item_ErrorView (ti : ErrorView)
  | item_multierror (ti : option (list error))
  | item_error (ti : error)
  | item_other (T : string).

(** The nested call [diags.Append(x)] of the unwrapping cases, where [x]
    is a [Diagnostics]: the Diagnostics case of the switch, then the final
    length test.  [Append_Diagnostics_nested] shows it is that call. *)
Definition Append_nested (diags ti : Diagnostics) : Diagnostics :=
  let diags := append diags (elems ti) in
  if decide (len diags = 0) then Nil else diags.

(** One round of the loop over [new]. *)
Definition Append_item (diags : Diagnostics) (item : Item)
    : result Diagnostics :=
  match item with
  | item_nil => Ok diags
  | item_Diagnostic ti => Ok (append diags [ti])
  | item_Diagnostics ti => Ok (append diags (elems ti))
  | item_ErrorView (diagnosticsAsError ti) => Ok (Append_nested diags ti)
  | item_ErrorView (NonFatalError ti) => Ok (Append_nested diags ti)
  | item_multierror None =>
      Panic "runtime error: invalid memory address or nil pointer dereference"
  | item_multierror (Some Errors) =>
      Ok (fold_left (λ diags err, append diags [nativeError err])
            Errors diags)
  | item_error ti =>
      match errwrap_GetType ti with
      | Some hidden => Ok (Append_nested diags hidden)
      | None => Ok (append diags [nativeError ti])
      end
  | item_other T => Panic ("can't construct diagnostic(s) from " +:+ T)
  end.

(** [for _, item := range new], a panic ending the call. *)
Fixpoint Append_loop (diags : Diagnostics) (new : list Item)
    : result Diagnostics :=
  match new with
  | [] => Ok diags
  | item :: new' =>
      diags' ← Append_item diags item;
      Append_loop diags' new'
  end.

(** [Append]: the loop, then [if len(diags) == 0 { return nil }]. *)
Definition Append (diags : Diagnostics) (new : list Item)
    : result Diagnostics :=
  diags' ← Append_loop diags new;
  if decide (len diags' = 0) then Ok Nil else Ok diags'.

(** *** Sort *)

(** [type sortDiagnostics []Diagnostic]; the sort permutes the elements of
    the backing array, so a list of elements stands for it. *)
Definition sortDiagnostics : Type := list Diagnostic.

(** The switch of [sortDiagnostics.Less] on the two elements read,
    [iD = sd[i]] and [jD = sd[j]].  In the third case [jSrc.Subject] is
    not nil, the second case having failed. *)
Definition Less_diag (iD jD : Diagnostic) : bool :=
  let iSev := Diagnostic_Severity iD in
  let jSev := Diagnostic_Severity jD in
  let iSrc := Diagnostic_Source iD in
  let jSrc := Diagnostic_Source jD in
  if decide (iSev ≠ jSev) then
    bool_decide (iSev = Warning)
  else if xorb (bool_decide (Subject iSrc = None))
               (bool_decide (Subject jSrc = None)) then
    bool_decide (Subject iSrc = None)
  else
    match Subject iSrc, Subject jSrc with
    | Some iSubj, Some jSubj =>
        if decide (iSubj ≠ jSubj) then
          if decide (Filename iSubj ≠ Filename jSubj) then
            let sep := filepath_Separator in
            let iCount := strings_Count (Filename iSubj) sep in
            let jCount := strings_Count (Filename jSubj) sep in
            if decide (iCount ≠ jCount) then bool_decide (iCount < jCount)
            else String.ltb (Filename iSubj) (Filename jSubj)
          else if decide (Byte (Start iSubj) ≠ Byte (Start jSubj)) then
            bool_decide (Byte (Start iSubj) < Byte (Start jSubj))%Z
          else if decide (Byte (End iSubj) ≠ Byte (End jSubj)) then
            bool_decide (Byte (End iSubj) < Byte (End jSubj))%Z
          else false
        else false
    | _, _ => false
    end.

Definition sortDiagnostics_Len (sd : sortDiagnostics) : nat := length sd.

Definition sortDiagnostics_Less (sd : sortDiagnostics) (i j : nat)
    : result bool :=
  iD ← index sd i;
  jD ← index sd j;
  Ok (Less_diag iD jD).

(** [sd[i], sd[j] = sd[j], sd[i]]: both elements are read, then both
    written. *)
Definition sortDiagnostics_Swap (sd : sortDiagnostics) (i j : nat)
    : result sortDiagnostics :=
  iD ← index sd i;
  jD ← index sd j;
  Ok (<[j:=iD]> (<[i:=jD]> sd)).

(** [var _ sort.Interface = sortDiagnostics(nil)] *)
#[global] Instance sortDiagnostics_Interface
  : sort_Interface sortDiagnostics := {|
  Len := sortDiagnostics_Len;
  Less := sortDiagnostics_Less;
  Swap := sortDiagnostics_Swap;
|}.

(** [Sort] works in place: the result is the receiver after the call, a
    slice over the same array, nil if it was nil. *)
Definition Sort (diags : Diagnostics) : result Diagnostics :=
  sd ← sort_Stable (X := sortDiagnostics) (elems diags);
  Ok (match diags with
      | Nil => Nil
      | slice_of _ => slice_of sd
      end).

(** The list part of a message as the spec words it: one line per
    element, ["- summary"] or ["- summary: detail"], in collection order,
    each after a line feed. *)
Definition bullet (d : Diagnostic) : string :=
  let desc := Diagnostic_Description d in
  if decide (Detail desc = "")
  then nl +:+ "- " +:+ Summary desc
  else nl +:+ "- " +:+ Summary desc +:+ ": " +:+ Detail desc.

Definition bullets (l : list Diagnostic) : string :=
  foldr (λ d rest, bullet d +:+ rest) "" l.

(** What an argument of [Append] stands for, as the spec lists the
    shapes: the diagnostics it contributes, in order, or [None] for a shape
    on which the call panics. *)
Definition Item_diagnostics (item : Item) : option (list Diagnostic) :=
  match item with
  | item_nil => Some []
  | item_Diagnostic ti => Some [ti]
  | item_Diagnostics ti => Some (elems ti)
  | item_ErrorView (diagnosticsAsError ti) => Some (elems ti)
  | item_ErrorView (NonFatalError ti) => Some (elems ti)
  | item_multierror None => None
  | item_multierror (Some Errors) => Some (nativeError <$> Errors)
  | item_error ti =>
      match errwrap_GetType ti with
      | Some hidden => Some (elems hidden)
      | None => Some [nativeError ti]
      end
  | item_other _ => None
  end.

(** The original error of an opaquely wrapped diagnostic; a diagnostic
    written by a user has none. *)
Definition wrapped_error (d : Diagnostic) : option error :=
  match d with
  | nativeError err => Some err
  | diag _ _ _ => None
  end.

(** The errors that accumulating an argument wraps opaquely, for a
    user's own diagnostic (none), an aggregate error (each of its causes)
    and a generic error that hides no collection (itself); the other
    shapes wrap nothing themselves. *)
Definition original_errors (item : Item) : option (list error) :=
  match item with
  | item_Diagnostic (diag _ _ _) => Some []
  | item_multierror (Some Errors) => Some Errors
  | item_error ti =>
      match errwrap_GetType ti with
      | Some _ => None
      | None => Some [ti]
      end
  | _ => None
  end.

(** The shapes the type switch of [Append] has a case for. *)
Definition recognized (item : Item) : Prop :=
  match item with
  | item_other _ => False
  | _ => True
  end.

(** The order of the spec, tier by tier: warnings before errors; then
    no subject before a subject; then, between two subjects, fewer path
    separators, the filename byte by byte, the start byte and the end
    byte. *)
Definition severity_compare (a b : Severity) : comparison :=
  match a, b with
  | Warning, Error => Lt
  | Error, Warning => Gt
  | _, _ => Eq
  end.

Definition separators (r : SourceRange) : nat :=
  strings_Count (Filename r) filepath_Separator.

Definition range_compare (a b : SourceRange) : comparison :=
  cmp_lex (separators a ?= separators b)
    (cmp_lex (String.compare (Filename a) (Filename b))
       (cmp_lex (Byte (Start a) ?= Byte (Start b))%Z
                (Byte (End a) ?= Byte (End b))%Z)).

Definition subject_compare (a b : option SourceRange) : comparison :=
  match a, b with
  | None, None => Eq
  | None, Some _ => Lt
  | Some _, None => Gt
  | Some a, Some b => range_compare a b
  end.

Definition precedence (x y : Diagnostic) : comparison :=
  cmp_lex
    (severity_compare (Diagnostic_Severity x) (Diagnostic_Severity y))
    (subject_compare (Subject (Diagnostic_Source x))
                     (Subject (Diagnostic_Source y))).

(** [in_order x y]: placing [x] before [y] respects every criterion. *)
Definition in_order (x y : Diagnostic) : Prop :=
  ¬ (Diagnostic_Severity x = Error ∧ Diagnostic_Severity y = Warning) ∧
  (Diagnostic_Severity x = Diagnostic_Severity y →
   match Subject (Diagnostic_Source x), Subject (Diagnostic_Source y) with
   | None, _ => True
   | Some _, None => False
   | Some a, Some b =>
       separators a ≤ separators b ∧
       (separators a = separators b →
        String.le (Filename a) (Filename b) ∧
        (Filename a = Filename b →
         (Byte (Start a) ≤ Byte (Start b))%Z ∧
         (Byte (Start a) = Byte (Start b) →
          (Byte (End a) ≤ Byte (End b))%Z)))
   end).

(** [same_rank x y]: no criterion tells [x] and [y] apart. *)
Definition same_rank (x y : Diagnostic) : Prop :=
  Diagnostic_Severity x = Diagnostic_Severity y ∧
  match Subject (Diagnostic_Source x), Subject (Diagnostic_Source y) with
  | None, None => True
  | Some a, Some b =>
      Filename a = Filename b ∧
      Byte (Start a) = Byte (Start b) ∧
      Byte (End a) = Byte (End b)
  | _, _ => False
  end.

#[global] Instance same_rank_dec (x y : Diagnostic) : Decision (same_rank x y).
Proof.
  unfold same_rank.
  destruct (Subject (Diagnostic_Source x)), (Subject (Diagnostic_Source y));
    apply _.
Defined.

(** The [Diagnostics] embedded in a view. *)
Definition ErrorView_Diagnostics (e : ErrorView) : Diagnostics :=
  match e with
  | diagnosticsAsError diags => diags
  | NonFatalError diags => diags
  end.

(** The [error] that [Err], [ErrWithWarnings] or [NonFatalErr] returned,
    passed on as an argument of [Append]: the nil error is the nil
    interface value, any other has the dynamic type of its view. *)
Definition error_item (e : option ErrorView) : Item :=
  match e with
  | None => item_nil
  | Some v => item_ErrorView v
  end.

(** What [Less] reads of a diagnostic: its severity and, of its subject,
    the filename and the two byte offsets. *)
Definition sort_key (d : Diagnostic) : Severity * option (string * Z * Z) :=
  (Diagnostic_Severity d,
   (λ r, (Filename r, Byte (Start r), Byte (End r)))
     <$> Subject (Diagnostic_Source d)).

(** The switch of [sortDiagnostics.Less] with the severities as the runes
    [Severity] is declared to be, for diagnostics whose [Severity] method
    returns a rune other than the two constants; [Warning] is 87. *)
Definition Less_rune (iSev jSev : Z) (iSrc jSrc : Source) : bool :=
  if decide (iSev ≠ jSev) then
    bool_decide (iSev = 87%Z)
  else if xorb (bool_decide (Subject iSrc = None))
               (bool_decide (Subject jSrc = None)) then
    bool_decide (Subject iSrc = None)
  else
    match Subject iSrc, Subject jSrc with
    | Some iSubj, Some jSubj =>
        if decide (iSubj ≠ jSubj) then
          if decide (Filename iSubj ≠ Filename jSubj) then
            let sep := filepath_Separator in
            let iCount := strings_Count (Filename iSubj) sep in
            let jCount := strings_Count (Filename jSubj) sep in
            if decide (iCount ≠ jCount) then bool_decide (iCount < jCount)
            else String.ltb (Filename iSubj) (Filename jSubj)
          else if decide (Byte (Start iSubj) ≠ Byte (Start jSubj)) then
            bool_decide (Byte (Start iSubj) < Byte (Start jSubj))%Z
          else if decide (Byte (End iSubj) ≠ Byte (End jSubj)) then
            bool_decide (Byte (End iSubj) < Byte (End jSubj))%Z
          else false
        else false
    | _, _ => false
    end.

(** What the [Error] methods read of a diagnostic: the summary and the
    detail of its description. *)
Definition shown (d : Diagnostic) : string * string :=
  (Summary (Diagnostic_Description d), Detail (Diagnostic_Description d)).

(** Two outcomes of a call agree: the same panic, or slices with the same
    elements. *)
Definition same_outcome (r1 r2 : result Diagnostics) : Prop :=
  match r1, r2 with
  | Ok d1, Ok d2 => elems d1 = elems d2
  | Panic msg1, Panic msg2 => msg1 = msg2
  | _, _ => False
  end.

(** Sample values for the concrete checks at the end: a diagnostic of a
    user's type with the given severity, summary, detail and subject, and
    a range of one byte in a file. *)
Definition sample_range (filename : string) (byte : Z) : SourceRange :=
  {| Filename := filename;
     Start := {| Line := 1; Column := 1; Byte := byte |};
     End := {| Line := 1; Column := 2; Byte := byte + 1 |} |}.

Definition sample_diag (severity : Severity) (summary detail : string)
    (subject : option SourceRange) : Diagnostic :=
  diag severity
    {| Address := ""; Summary := summary; Detail := detail |}
    {| Subject := subject; Context := None |}.

(** ** Queries and conversions *)

Lemma Forall_Warning_HasErrors (diags : Diagnostics) :
  Forall (λ d, Diagnostic_Severity d = Warning) (elems diags) →
  HasErrors diags = false.
Proof.
  unfold HasErrors. induction 1 as [|d l Hd _ IH]; simpl; [done|].
  rewrite IH, Hd. done.
Qed.

Lemma HasErrors_true (diags : Diagnostics) :
  HasErrors diags = true ↔
  ∃ d, d ∈ elems diags ∧ Diagnostic_Severity d = Error.
Proof.
  unfold HasErrors. rewrite existsb_exists. split.
  - intros (d & Hin & Hd). exists d. split.
    + by apply list_elem_of_In.
    + by apply bool_decide_eq_true in Hd.
  - intros (d & Hin & Hd). exists d. split.
    + by apply list_elem_of_In.
    + by apply bool_decide_eq_true.
Qed.

Lemma len_0_elems {A} (s : slice A) : len s = 0 ↔ elems s = [].
Proof. unfold len. by destruct (elems s). Qed.

(** C2. [Err] returns nil exactly when [HasErrors] is false, which
    includes every collection of warnings only, whatever its length;
    otherwise it returns the fatal view holding the receiver itself.
    [HasErrors] is true exactly when some element has severity Error. *)
Theorem Err_nil_iff_not_HasErrors (diags : Diagnostics) :
  (Err diags = None ↔ HasErrors diags = false) ∧
  (Err diags ≠ None ↔ Err diags = Some (diagnosticsAsError diags)) ∧
  (HasErrors diags = true ↔
     ∃ d, d ∈ elems diags ∧ Diagnostic_Severity d = Error) ∧
  (Forall (λ d, Diagnostic_Severity d = Warning) (elems diags) →
     Err diags = None).
Proof.
  split_and!.
  - unfold Err. destruct (HasErrors diags); simpl; split; congruence.
  - unfold Err. destruct (HasErrors diags); simpl; split; congruence.
  - apply HasErrors_true.
  - intros Hw. unfold Err. by rewrite (Forall_Warning_HasErrors _ Hw).
Qed.

(** C3. [ErrWithWarnings] returns nil exactly for a collection of length
    0.  With an element of severity Error its result is that of [Err], the
    fatal view of the receiver.  For a collection that is not empty and
    holds warnings only it is the [NonFatalError] holding the receiver, a
    value that is neither nil nor a fatal view. *)
Theorem ErrWithWarnings_cases (diags : Diagnostics) :
  (ErrWithWarnings diags = None ↔ len diags = 0) ∧
  ((∃ d, d ∈ elems diags ∧ Diagnostic_Severity d = Error) →
     ErrWithWarnings diags = Err diags ∧
     Err diags = Some (diagnosticsAsError diags)) ∧
  (len diags ≠ 0 →
   Forall (λ d, Diagnostic_Severity d = Warning) (elems diags) →
     ErrWithWarnings diags = Some (NonFatalError diags)).
Proof.
  split_and!.
  - unfold ErrWithWarnings, Err. case_decide as Hlen; [done|].
    destruct (HasErrors diags); simpl; split; congruence.
  - intros He. apply HasErrors_true in He as He'.
    unfold ErrWithWarnings, Err. rewrite He'. simpl.
    case_decide as Hlen; [|done].
    apply len_0_elems in Hlen. destruct He as (d & Hin & _).
    rewrite Hlen in Hin. by apply elem_of_nil in Hin.
  - intros Hlen Hw. unfold ErrWithWarnings.
    rewrite (Forall_Warning_HasErrors _ Hw). by case_decide.
Qed.

(** C4. [NonFatalErr] returns nil exactly for a collection of length 0,
    and otherwise the [NonFatalError] holding the receiver, with or
    without elements of severity Error. *)
Theorem NonFatalErr_cases (diags : Diagnostics) :
  (NonFatalErr diags = None ↔ len diags = 0) ∧
  (len diags ≠ 0 → NonFatalErr diags = Some (NonFatalError diags)) ∧
  (len diags ≠ 0 → HasErrors diags = true →
     NonFatalErr diags = Some (NonFatalError diags) ∧
     Err diags = Some (diagnosticsAsError diags)).
Proof.
  unfold NonFatalErr, Err. split_and!.
  - by case_decide.
  - intros Hlen. by case_decide.
  - intros Hlen He. rewrite He. by case_decide.
Qed.

(** ** Messages of the two views *)

Lemma string_app_assoc (s1 s2 s3 : string) :
  (s1 +:+ s2) +:+ s3 = s1 +:+ s2 +:+ s3.
Proof.
  induction s1 as [|c s1 IH]; [done|].
  change (String c ((s1 +:+ s2) +:+ s3) = String c (s1 +:+ s2 +:+ s3)).
  by f_equal.
Qed.

Lemma string_app_empty_r (s : string) : s +:+ "" = s.
Proof.
  induction s as [|c s IH]; [done|].
  change (String c (s +:+ "") = String c s). by f_equal.
Qed.

(** The loop over the elements appends their lines to the buffer. *)
Lemma render_loop (l : list Diagnostic) (ret : string) :
  fold_left
    (λ ret d,
       let desc := Diagnostic_Description d in
       if decide (Detail desc = "")
       then ret +:+ nl +:+ "- " +:+ Summary desc
       else ret +:+ nl +:+ "- " +:+ Summary desc +:+ ": " +:+ Detail desc)
    l ret
  = ret +:+ bullets l.
Proof.
  revert ret. induction l as [|d l IH]; intros ret; simpl.
  - by rewrite string_app_empty_r.
  - rewrite IH. unfold bullet. simpl.
    destruct (decide (Detail (Diagnostic_Description d) = ""));
      by rewrite string_app_assoc.
Qed.

Lemma diagnosticsAsError_Error_many (diags : Diagnostics) :
  1 < len diags →
  diagnosticsAsError_Error diags
  = pretty (len diags) +:+ " problems:" +:+ nl +:+ bullets (elems diags).
Proof.
  unfold diagnosticsAsError_Error, len. intros Hlen.
  destruct (elems diags) as [|d1 [|d2 l]] eqn:E; simpl in Hlen; [lia..|].
  rewrite render_loop. by rewrite !string_app_assoc.
Qed.

Lemma NonFatalError_Error_many (diags : Diagnostics) :
  1 < len diags →
  NonFatalError_Error diags
  = pretty (len diags)
    +:+ (if HasErrors diags then " problems:" else " warnings:")
    +:+ nl +:+ bullets (elems diags).
Proof.
  unfold NonFatalError_Error, len. intros Hlen.
  destruct (elems diags) as [|d1 [|d2 l]] eqn:E; simpl in Hlen; [lia..|].
  rewrite render_loop. destruct (HasErrors diags); by rewrite !string_app_assoc.
Qed.

(** C1, as the code has it.  The fatal view's message for a single item
    is its summary when the detail is empty and ["summary: detail"]
    otherwise.  For three items with empty details it is
    ["3 problems:\n\n- s1\n- s2\n- s3"]: a blank line after the header
    and one line per item, in collection order, with no blank line
    between the items.  For any collection of two or more items it is the
    header followed by the items' lines in collection order. *)
Theorem fatal_message (d d1 d2 d3 : Diagnostic) :
  (Detail (Diagnostic_Description d) = "" →
     diagnosticsAsError_Error (slice_of [d])
     = Summary (Diagnostic_Description d)) ∧
  (Detail (Diagnostic_Description d) ≠ "" →
     diagnosticsAsError_Error (slice_of [d])
     = Summary (Diagnostic_Description d) +:+ ": "
       +:+ Detail (Diagnostic_Description d)) ∧
  (Detail (Diagnostic_Description d1) = "" →
   Detail (Diagnostic_Description d2) = "" →
   Detail (Diagnostic_Description d3) = "" →
     diagnosticsAsError_Error (slice_of [d1; d2; d3])
     = "3 problems:" +:+ nl
       +:+ nl +:+ "- " +:+ Summary (Diagnostic_Description d1)
       +:+ nl +:+ "- " +:+ Summary (Diagnostic_Description d2)
       +:+ nl +:+ "- " +:+ Summary (Diagnostic_Description d3)) ∧
  (∀ diags : Diagnostics, 1 < len diags →
     diagnosticsAsError_Error diags
     = pretty (len diags) +:+ " problems:" +:+ nl +:+ bullets (elems diags)).
Proof.
  split_and!.
  - intros Hd. unfold diagnosticsAsError_Error. simpl. by case_decide.
  - intros Hd. unfold diagnosticsAsError_Error. simpl. by case_decide.
  - intros H1 H2 H3. rewrite diagnosticsAsError_Error_many by (cbn; lia).
    cbn [elems bullets foldr len length]. unfold bullet.
    rewrite H1, H2, H3. simpl.
    by rewrite !string_app_assoc, string_app_empty_r.
  - apply diagnosticsAsError_Error_many.
Qed.

(** C7. The non-fatal view renders like the fatal view but for two
    things: its text for no element is ["no errors or warnings"] where the
    fatal view has ["no errors"], and for two or more elements its header
    is ["<n> problems:"] if some element has severity Error and
    ["<n> warnings:"] otherwise, where the fatal view always has
    ["<n> problems:"].  For one element the two messages are the same, and
    the lines after the header are the same. *)
Theorem nonfatal_message (diags : Diagnostics) :
  (len diags = 0 →
     NonFatalError_Error diags = "no errors or warnings" ∧
     diagnosticsAsError_Error diags = "no errors") ∧
  (len diags = 1 →
     NonFatalError_Error diags = diagnosticsAsError_Error diags) ∧
  (1 < len diags → HasErrors diags = true →
     NonFatalError_Error diags
     = pretty (len diags) +:+ " problems:" +:+ nl +:+ bullets (elems diags)) ∧
  (1 < len diags → HasErrors diags = false →
     NonFatalError_Error diags
     = pretty (len diags) +:+ " warnings:" +:+ nl +:+ bullets (elems diags)) ∧
  (1 < len diags →
     diagnosticsAsError_Error diags
     = pretty (len diags) +:+ " problems:" +:+ nl +:+ bullets (elems diags)).
Proof.
  split_and!.
  - intros Hlen. apply len_0_elems in Hlen.
    unfold NonFatalError_Error, diagnosticsAsError_Error. by rewrite Hlen.
  - unfold len, NonFatalError_Error, diagnosticsAsError_Error.
    destruct (elems diags) as [|d1 [|d2 l]]; simpl; intros; done.
  - intros Hlen He. rewrite NonFatalError_Error_many by done. by rewrite He.
  - intros Hlen He. rewrite NonFatalError_Error_many by done. by rewrite He.
  - apply diagnosticsAsError_Error_many.
Qed.

(** ** Append *)

Lemma elems_append {A} (s : slice A) (xs : list A) :
  elems (append s xs) = elems s ++ xs.
Proof. destruct xs; simpl; [by rewrite app_nil_r|done]. Qed.

Lemma elems_Append_nested (diags ti : Diagnostics) :
  elems (Append_nested diags ti) = elems diags ++ elems ti.
Proof.
  unfold Append_nested. case_decide as Hlen; [|apply elems_append].
  apply len_0_elems in Hlen. by rewrite <- elems_append, Hlen.
Qed.

Lemma elems_append_each {A B} (f : A → B) (xs : list A) (s : slice B) :
  elems (fold_left (λ s x, append s [f x]) xs s) = elems s ++ (f <$> xs).
Proof.
  revert s. induction xs as [|x xs IH]; intros s; simpl.
  - by rewrite app_nil_r.
  - rewrite IH. simpl. by rewrite <- app_assoc.
Qed.

(** One round either panics, on a shape that stands for nothing, or
    extends the collection by what the argument stands for. *)
Lemma Append_item_Ok (diags : Diagnostics) (item : Item) (l : list Diagnostic) :
  Item_diagnostics item = Some l →
  ∃ diags', Append_item diags item = Ok diags' ∧
            elems diags' = elems diags ++ l.
Proof.
  destruct item as [|ti|ti|[ti|ti]|[errs|]|ti|T]; simpl; intros Hl;
    simplify_eq; eauto using elems_append, elems_Append_nested,
                             elems_append_each.
  - eexists; split; [done|]. by rewrite app_nil_r.
  - destruct (errwrap_GetType ti); simplify_eq;
      eauto using elems_append, elems_Append_nested.
Qed.

Lemma Append_item_Panic (diags : Diagnostics) (item : Item) :
  Item_diagnostics item = None →
  ∃ msg, Append_item diags item = Panic msg.
Proof.
  destruct item as [|ti|ti|[ti|ti]|[errs|]|ti|T]; simpl; intros Hl;
    simplify_eq; eauto.
  destruct (errwrap_GetType ti); simplify_eq.
Qed.

Lemma Append_loop_Ok (new : list Item) (ls : list (list Diagnostic)) :
  Forall2 (λ item l, Item_diagnostics item = Some l) new ls →
  ∀ diags : Diagnostics,
  ∃ diags', Append_loop diags new = Ok diags' ∧
            elems diags' = elems diags ++ concat ls.
Proof.
  induction 1 as [|item l new ls Hl _ IH]; intros diags; simpl.
  - eexists; split; [done|]. by rewrite app_nil_r.
  - destruct (Append_item_Ok diags item l Hl) as (d1 & -> & Hd1). simpl.
    destruct (IH d1) as (d2 & -> & Hd2).
    eexists; split; [done|]. by rewrite Hd2, Hd1, <- app_assoc.
Qed.

Lemma Append_loop_inv (new : list Item) :
  ∀ (diags diags' : Diagnostics),
  Append_loop diags new = Ok diags' →
  ∃ ls, Forall2 (λ item l, Item_diagnostics item = Some l) new ls ∧
        elems diags' = elems diags ++ concat ls.
Proof.
  induction new as [|item new IH]; intros diags diags' Hok; simplify_eq/=.
  - exists []. split; [done|]. simpl. by rewrite app_nil_r.
  - destruct (Item_diagnostics item) as [l|] eqn:Hl.
    + destruct (Append_item_Ok diags item l Hl) as (d1 & Hd1 & Hel).
      rewrite Hd1 in Hok. simpl in Hok.
      destruct (IH _ _ Hok) as (ls & Hls & Hel').
      exists (l :: ls). split; [by constructor|].
      simpl. by rewrite Hel', Hel, <- app_assoc.
    + destruct (Append_item_Panic diags item Hl) as (msg & Hmsg).
      by rewrite Hmsg in Hok.
Qed.

Lemma Append_Ok_inv (diags : Diagnostics) (new : list Item) (r : Diagnostics) :
  Append diags new = Ok r →
  ∃ diags', Append_loop diags new = Ok diags' ∧ elems r = elems diags' ∧
            r = (if decide (len diags' = 0) then Nil else diags').
Proof.
  unfold Append. destruct (Append_loop diags new) as [d|msg]; simpl; [|done].
  intros Hr. exists d. split; [done|].
  case_decide as Hlen; simplify_eq; [|done].
  apply len_0_elems in Hlen. by rewrite Hlen.
Qed.

Lemma Append_loop_Append (diags d : Diagnostics) (new : list Item) :
  Append_loop diags new = Ok d →
  ∃ r, Append diags new = Ok r ∧ elems r = elems d.
Proof.
  intros Hd. unfold Append. rewrite Hd. simpl.
  case_decide as Hlen; eexists; (split; [done|]); [|done].
  apply len_0_elems in Hlen. by rewrite Hlen.
Qed.

(** The nested call of the unwrapping cases is the call it stands for. *)
Lemma Append_Diagnostics_nested (diags ti : Diagnostics) :
  Append diags [item_Diagnostics ti] = Ok (Append_nested diags ti).
Proof.
  unfold Append, Append_nested. simpl. by case_decide.
Qed.

Lemma Append_loop_skip_nil (pre post : list Item) :
  ∀ diags : Diagnostics,
  Append_loop diags (pre ++ item_nil :: post) = Append_loop diags (pre ++ post).
Proof.
  induction pre as [|item pre IH]; intros diags; simpl; [done|].
  destruct (Append_item diags item); simpl; [apply IH|done].
Qed.

(** C5. [Append] skips nil arguments; the elements of its result are the
    receiver's followed by the diagnostics each argument stands for, a
    collection counting for its elements one by one, so that nothing but
    single diagnostics is stored; appending collection [B] to [A], or [A]
    and [B] to nil, gives [len A + len B] elements; and a result of length
    0 is the nil slice, never an allocated empty one. *)
Theorem Append_flattens (diags A B : Diagnostics) (new : list Item) :
  Append Nil [item_nil; item_nil] = Ok Nil ∧
  (∀ pre post,
     Append diags (pre ++ item_nil :: post) = Append diags (pre ++ post)) ∧
  (∀ r, Append diags new = Ok r →
     ∃ ls, Forall2 (λ item l, Item_diagnostics item = Some l) new ls ∧
           elems r = elems diags ++ concat ls) ∧
  (∃ r, Append A [item_Diagnostics B] = Ok r ∧
        elems r = elems A ++ elems B ∧ len r = len A + len B) ∧
  (∃ r, Append Nil [item_Diagnostics A; item_Diagnostics B] = Ok r ∧
        elems r = elems A ++ elems B ∧ len r = len A + len B) ∧
  (∀ r, Append diags new = Ok r → len r = 0 → r = Nil) ∧
  (∀ r, Append diags new = Ok r → r ≠ slice_of []).
Proof.
  split_and!.
  - done.
  - intros pre post. unfold Append. by rewrite Append_loop_skip_nil.
  - intros r Hr. apply Append_Ok_inv in Hr as (d & Hd & Hel & _).
    apply Append_loop_inv in Hd as (ls & Hls & Hd). exists ls.
    by rewrite Hel.
  - rewrite Append_Diagnostics_nested. eexists; split; [done|].
    unfold len. rewrite elems_Append_nested, length_app. by split.
  - destruct (Append_loop_Ok [item_Diagnostics A; item_Diagnostics B]
                [elems A; elems B]) with (diags := @Nil Diagnostic)
      as (d & Hd & Hel); [by repeat constructor|].
    apply Append_loop_Append in Hd as (r & Hr & Hel').
    exists r. split; [done|]. unfold len. rewrite Hel', Hel. simpl.
    by rewrite app_nil_r, length_app.
  - intros r Hr Hlen. apply Append_Ok_inv in Hr as (d & _ & Hel & ->).
    case_decide as Hd; [done|]. by unfold len in *.
  - intros r Hr ->. apply Append_Ok_inv in Hr as (d & _ & _ & Hr).
    case_decide as Hd; [done|]. subst d. by cbn in Hd.
Qed.

(** C9. A call of [Append] with an argument of a shape that the type
    switch has no case for never returns: it panics.  When the arguments
    before it have recognized shapes and none is a nil
    [*multierror.Error], the panic is the one raised for that argument,
    its message naming the argument's type. *)
Theorem Append_unsupported_shape_panics
    (diags : Diagnostics) (pre post : list Item) (T : string) :
  (∀ new, item_other T ∈ new → ∃ msg, Append diags new = Panic msg) ∧
  (Forall (λ item, recognized item ∧ item ≠ item_multierror None) pre →
   Append diags (pre ++ item_other T :: post)
   = Panic ("can't construct diagnostic(s) from " +:+ T)).
Proof.
  split.
  - intros new Hin. destruct (Append diags new) as [r|msg] eqn:Hr; [|eauto].
    apply Append_Ok_inv in Hr as (d & Hd & _).
    apply Append_loop_inv in Hd as (ls & Hls & _).
    apply list_elem_of_lookup in Hin as [i Hi].
    destruct (Forall2_lookup_l _ _ _ _ _ Hls Hi) as (l & _ & Hl). done.
  - intros Hpre. unfold Append.
    assert (∀ d, Append_loop d (pre ++ item_other T :: post)
                 = Panic ("can't construct diagnostic(s) from " +:+ T)) as ->;
      [|done].
    induction Hpre as [|item pre [Hrec Hnil] _ IH]; intros d; simpl; [done|].
    destruct (Item_diagnostics item) as [l|] eqn:Hl.
    + destruct (Append_item_Ok d item l Hl) as (d1 & -> & _). apply IH.
    + destruct item as [| | |[|]|[|]| |]; simplify_eq/=; try done.
      destruct (errwrap_GetType ti); simplify_eq.
Qed.

(** ** Unwrapping the causal errors *)

Lemma elems_WrappedErrors_loop (l : list Diagnostic) (errs : slice error) :
  elems (fold_left
           (λ errs d,
              match d with
              | nativeError err => append errs [err]
              | diag _ _ _ => errs
              end) l errs)
  = elems errs ++ omap wrapped_error l.
Proof.
  revert errs. induction l as [|d l IH]; intros errs; simpl.
  - by rewrite app_nil_r.
  - rewrite IH. destruct d as [sev desc src|err]; simpl; [done|].
    by rewrite <- app_assoc.
Qed.

Lemma elems_WrappedErrors (dae : Diagnostics) :
  elems (WrappedErrors dae) = omap wrapped_error (elems dae).
Proof. unfold WrappedErrors. by rewrite elems_WrappedErrors_loop. Qed.

Lemma omap_wrapped_nativeError (errs : list error) :
  omap wrapped_error (nativeError <$> errs) = errs.
Proof. induction errs as [|e errs IH]; simpl; [done|]. by f_equal. Qed.

Lemma original_errors_diagnostics (item : Item) (errs : list error) :
  original_errors item = Some errs →
  ∃ l, Item_diagnostics item = Some l ∧ omap wrapped_error l = errs.
Proof.
  destruct item as [|[sev desc src|e]|ti|ti|[es|]|ti|T]; simpl; intros He;
    simplify_eq; eauto using omap_wrapped_nativeError.
  destruct (errwrap_GetType ti); simplify_eq; eauto.
Qed.

(** C8. [WrappedErrors] returns, in collection order, the original error
    of every opaquely wrapped diagnostic and nothing for a diagnostic
    written by a user.  So after accumulating user diagnostics, aggregate
    errors and generic errors, it gives back the receiver's wrapped errors
    followed by exactly the error values passed in, in the order they were
    passed. *)
Theorem WrappedErrors_recovers_original_errors
    (diags : Diagnostics) (new : list Item) (originals : list (list error)) :
  elems (WrappedErrors diags) = omap wrapped_error (elems diags) ∧
  (Forall2 (λ item errs, original_errors item = Some errs) new originals →
   ∃ r, Append diags new = Ok r ∧
        elems (WrappedErrors r)
        = elems (WrappedErrors diags) ++ concat originals).
Proof.
  split; [apply elems_WrappedErrors|]. intros Hnew.
  assert (∃ ls, Forall2 (λ item l, Item_diagnostics item = Some l) new ls ∧
                omap wrapped_error (concat ls) = concat originals)
    as (ls & Hls & Hw).
  { induction Hnew as [|item errs new originals He _ (ls & Hls & Hw)].
    - by exists [].
    - apply original_errors_diagnostics in He as (l & Hl & He).
      exists (l :: ls). split; [by constructor|].
      simpl. by rewrite omap_app, He, Hw. }
  destruct (Append_loop_Ok new ls Hls diags) as (d & Hd & Hel).
  apply Append_loop_Append in Hd as (r & Hr & Hel').
  exists r. split; [done|].
  by rewrite !elems_WrappedErrors, Hel', Hel, omap_app, Hw.
Qed.

(** ** Sorting: insertion on lists, then [sort.Stable] on a slice *)

Section StableSortFacts.
Context {A : Type} (less : A → A → bool).

(** [less] is a strict weak order: asymmetric, and not being less is
    transitive. *)
Hypothesis less_asym : ∀ x y, less x y = true → less y x = false.
Hypothesis less_negtrans :
  ∀ x y z, less x y = false → less y z = false → less x z = false.

Lemma move_left_Permutation (x : A) (r : list A) :
  move_left less x r ≡ₚ x :: r.
Proof.
  induction r as [|y r IH]; simpl; [done|].
  destruct (less x y); [|done]. rewrite IH. apply perm_swap.
Qed.

Lemma length_move_left (x : A) (r : list A) :
  length (move_left less x r) = S (length r).
Proof. by rewrite move_left_Permutation. Qed.

Lemma elem_of_move_left (x z : A) (r : list A) :
  z ∈ move_left less x r ↔ z = x ∨ z ∈ r.
Proof. by rewrite move_left_Permutation, elem_of_cons. Qed.

Lemma move_left_sorted (x : A) (r : list A) :
  StronglySorted (may_precede less) (reverse r) →
  StronglySorted (may_precede less) (reverse (move_left less x r)).
Proof.
  induction r as [|y r IH]; simpl; intros Hr.
  - rewrite reverse_singleton. repeat constructor.
  - rewrite reverse_cons in Hr.
    apply StronglySorted_app in Hr as (Hy & Hr & _).
    destruct (less x y) eqn:Hxy; rewrite !reverse_cons.
    + apply StronglySorted_app_2; [|by apply IH|repeat constructor].
      intros x1 x2 Hx1 ->%list_elem_of_singleton.
      rewrite elem_of_reverse, elem_of_move_left in Hx1.
      destruct Hx1 as [->|Hx1].
      * by apply less_asym.
      * apply Hy; [by apply elem_of_reverse|by apply list_elem_of_singleton].
    + apply StronglySorted_app_2; [| |repeat constructor].
      * intros x1 x2 Hx1 ->%list_elem_of_singleton.
        apply elem_of_app in Hx1 as [Hx1| ->%list_elem_of_singleton]; [|done].
        unfold may_precede. apply less_negtrans with y; [done|].
        apply Hy; [done|by apply list_elem_of_singleton].
      * apply StronglySorted_app_2; [done..|repeat constructor].
Qed.

(** A predicate that never holds of both [a] and [b] when [a] is less
    than [b] selects the same elements in the same order before and after
    a run of the inner loop. *)
Lemma move_left_filter (P : A → Prop) `{!∀ a, Decision (P a)}
    (x : A) (r : list A) :
  (∀ a b, less a b = true → P a → P b → False) →
  filter P (reverse (move_left less x r)) = filter P (reverse r ++ [x]).
Proof.
  intros HP. induction r as [|y r IH]; simpl; [done|].
  destruct (less x y) eqn:Hxy; rewrite ?reverse_cons; [|done].
  rewrite !filter_app, IH, filter_app, <- !app_assoc. f_equal.
  rewrite !filter_singleton; [|exact []..].
  destruct (decide (P x)), (decide (P y)); try done.
  by destruct (HP x y).
Qed.

Lemma insertion_fold_sorted (l r : list A) :
  StronglySorted (may_precede less) (reverse r) →
  StronglySorted (may_precede less)
    (reverse (fold_left (λ r x, move_left less x r) l r)).
Proof.
  revert r. induction l as [|x l IH]; intros r Hr; simpl; [done|].
  by apply IH, move_left_sorted.
Qed.

Lemma insertion_fold_filter (P : A → Prop) `{!∀ a, Decision (P a)}
    (l r : list A) :
  (∀ a b, less a b = true → P a → P b → False) →
  filter P (reverse (fold_left (λ r x, move_left less x r) l r))
  = filter P (reverse r ++ l).
Proof.
  intros HP. revert r. induction l as [|x l IH]; intros r; simpl.
  - by rewrite app_nil_r.
  - rewrite IH, !filter_app, move_left_filter by done.
    change (x :: l) with ([x] ++ l). by rewrite !filter_app, <- app_assoc.
Qed.

Lemma insertion_fold_Permutation (l r : list A) :
  fold_left (λ r x, move_left less x r) l r ≡ₚ r ++ l.
Proof.
  revert r. induction l as [|x l IH]; intros r; simpl.
  - by rewrite app_nil_r.
  - rewrite IH, move_left_Permutation. simpl. apply Permutation_middle.
Qed.

Lemma insertion_sorted_sorted (l : list A) :
  StronglySorted (may_precede less) (insertion_sorted less l).
Proof. apply insertion_fold_sorted. constructor. Qed.

Lemma insertion_sorted_Permutation (l : list A) :
  insertion_sorted less l ≡ₚ l.
Proof.
  unfold insertion_sorted. by rewrite reverse_Permutation,
    insertion_fold_Permutation.
Qed.

Lemma insertion_sorted_stable (P : A → Prop) `{!∀ a, Decision (P a)}
    (l : list A) :
  (∀ a b, less a b = true → P a → P b → False) →
  filter P (insertion_sorted less l) = filter P l.
Proof. intros HP. unfold insertion_sorted. by rewrite insertion_fold_filter. Qed.

Lemma insertion_sorted_tied (z : A) (l : list A) :
  filter (tied less z) (insertion_sorted less l) = filter (tied less z) l.
Proof.
  apply insertion_sorted_stable. intros a b Hab [_ Haz] [Hzb _].
  rewrite (less_negtrans a z b) in Hab; done.
Qed.

Lemma tied_refl (x : A) : tied less x x.
Proof.
  assert (less x x = false); [|done].
  destruct (less x x) eqn:Hx; [|done]. by rewrite (less_asym x x) in Hx.
Qed.

(** A sorted and stable rearrangement is unique: two sorted lists in
    which the elements tied with any given one come in the same order are
    equal.  Whatever stable sorting algorithm runs, this is its result. *)
Lemma stable_sort_unique (l1 : list A) :
  ∀ l2 : list A,
  StronglySorted (may_precede less) l1 →
  StronglySorted (may_precede less) l2 →
  (∀ z, filter (tied less z) l1 = filter (tied less z) l2) →
  l1 = l2.
Proof.
  induction l1 as [|x l1 IH]; intros l2 Hs1 Hs2 Hf.
  - destruct l2 as [|y l2]; [done|]. specialize (Hf y).
    rewrite filter_cons_True in Hf by apply tied_refl. done.
  - apply StronglySorted_cons in Hs1 as [Hx Hs1].
    destruct l2 as [|y l2].
    { specialize (Hf x). rewrite filter_cons_True in Hf by apply tied_refl.
      done. }
    apply StronglySorted_cons in Hs2 as [Hy Hs2].
    assert (y = x) as ->.
    { destruct (decide (tied less x y)) as [Hxy|Hxy].
      - specialize (Hf x).
        rewrite filter_cons_True in Hf by apply tied_refl.
        rewrite (filter_cons_True _ y) in Hf by done. congruence.
      - exfalso. apply Hxy.
        assert (y ≠ x) as Hne by (intros ->; apply Hxy, tied_refl).
        assert (y ∈ x :: l1) as Hy1.
        { eapply (list_elem_of_filter (tied less y)). rewrite (Hf y).
          rewrite filter_cons_True by apply tied_refl. left. }
        assert (x ∈ y :: l2) as Hx2.
        { eapply (list_elem_of_filter (tied less x)). rewrite <- (Hf x).
          rewrite filter_cons_True by apply tied_refl. left. }
        apply elem_of_cons in Hy1 as [?|Hy1]; [done|].
        apply elem_of_cons in Hx2 as [?|Hx2]; [done|].
        rewrite Forall_forall in Hx, Hy. split.
        + by apply (Hy x).
        + by apply (Hx y). }
    f_equal. apply IH; [done..|]. intros z. specialize (Hf z).
    rewrite !filter_cons in Hf. case_decide; congruence.
Qed.

Lemma StronglySorted_lookup (R : relation A) (l : list A) (i j : nat) (x y : A) :
  StronglySorted R l → i < j → l !! i = Some x → l !! j = Some y → R x y.
Proof.
  intros Hl. revert i j. induction Hl as [|z l Hl IH Hz]; intros i j Hij Hi Hj.
  - done.
  - destruct j as [|j]; [lia|]. simpl in Hj. destruct i as [|i]; simpl in Hi.
    + simplify_eq. rewrite Forall_forall in Hz.
      apply Hz. by eapply list_elem_of_lookup_2.
    + apply (IH i j); [lia|done..].
Qed.

(** *** The sort on a list

    From here on the slice is a list, read and written by index as a Go
    slice is. *)
Context `{!sort_Interface (list A)}.

Hypothesis Len_list : ∀ l : list A, Len l = length l.
Hypothesis Less_list : ∀ (l : list A) i j,
  Less l i j = (x ← index l i; y ← index l j; Ok (less x y)).
Hypothesis Swap_list : ∀ (l : list A) i j,
  Swap l i j = (x ← index l i; y ← index l j; Ok (<[j:=x]> (<[i:=y]> l))).

Lemma index_lookup (l : list A) (i : nat) (x : A) :
  l !! i = Some x → index l i = Ok x.
Proof. unfold index. by intros ->. Qed.

Lemma Less_lookup (l : list A) (i j : nat) (x y : A) :
  l !! i = Some x → l !! j = Some y → Less l i j = Ok (less x y).
Proof.
  intros Hi Hj. rewrite Less_list, (index_lookup _ _ _ Hi). simpl.
  by rewrite (index_lookup _ _ _ Hj).
Qed.

Lemma Swap_lookup (l : list A) (i j : nat) (x y : A) :
  l !! i = Some x → l !! j = Some y →
  Swap l i j = Ok (<[j:=x]> (<[i:=y]> l)).
Proof.
  intros Hi Hj. rewrite Swap_list, (index_lookup _ _ _ Hi). simpl.
  by rewrite (index_lookup _ _ _ Hj).
Qed.

(** Positions in a list cut into pieces. *)
Lemma lookup_cut (l1 l2 : list A) (x : A) (i : nat) :
  i = length l1 → (l1 ++ x :: l2) !! i = Some x.
Proof. intros ->. by apply list_lookup_middle. Qed.

Lemma insert_cut (l1 l2 : list A) (x y : A) (i : nat) :
  i = length l1 → <[i:=y]> (l1 ++ x :: l2) = l1 ++ y :: l2.
Proof.
  intros ->. rewrite insert_app_r_alt by lia. by rewrite Nat.sub_diag.
Qed.

(** Exchanging two elements, the first one first. *)
Lemma Swap_apart (l1 l2 l3 : list A) (x y : A) (i j : nat) :
  i = length l1 → j = length l1 + S (length l2) →
  Swap (l1 ++ x :: l2 ++ y :: l3) i j = Ok (l1 ++ y :: l2 ++ x :: l3).
Proof.
  intros Hi Hj.
  assert ((l1 ++ x :: l2 ++ y :: l3) !! j = Some y) as Hy.
  { replace (l1 ++ x :: l2 ++ y :: l3) with ((l1 ++ x :: l2) ++ y :: l3)
      by by rewrite <- app_assoc.
    apply lookup_cut. rewrite length_app. simpl. lia. }
  rewrite (Swap_lookup _ i j x y) by (by apply lookup_cut || done).
  f_equal. rewrite insert_cut by done.
  replace (l1 ++ y :: l2 ++ y :: l3) with ((l1 ++ y :: l2) ++ y :: l3)
    by by rewrite <- app_assoc.
  rewrite insert_cut by (rewrite length_app; simpl; lia).
  by rewrite <- app_assoc.
Qed.

(** The same exchange with the indices given the other way round. *)
Lemma Swap_apart_rev (l1 l2 l3 : list A) (x y : A) (i j : nat) :
  i = length l1 → j = length l1 + S (length l2) →
  Swap (l1 ++ x :: l2 ++ y :: l3) j i = Ok (l1 ++ y :: l2 ++ x :: l3).
Proof.
  intros Hi Hj.
  assert ((l1 ++ x :: l2 ++ y :: l3) !! j = Some y) as Hy.
  { replace (l1 ++ x :: l2 ++ y :: l3) with ((l1 ++ x :: l2) ++ y :: l3)
      by by rewrite <- app_assoc.
    apply lookup_cut. rewrite length_app. simpl. lia. }
  rewrite (Swap_lookup _ j i y x) by (by apply lookup_cut || done).
  f_equal.
  replace (l1 ++ x :: l2 ++ y :: l3) with ((l1 ++ x :: l2) ++ y :: l3)
    by by rewrite <- app_assoc.
  rewrite insert_cut by (rewrite length_app; simpl; lia).
  rewrite <- app_assoc. simpl. by rewrite insert_cut.
Qed.

(** [for k := a; k < a + len(w); k++ { Swap(k, k+1) }] carries the element
    at [a] to the right over [w]. *)
Lemma bubble_right (w : list A) :
  ∀ (pre rest : list A) (x : A) (a : nat),
  a = length pre →
  for_each (seq a (length w)) (λ k data, Swap data k (k + 1))
    (pre ++ x :: w ++ rest)
  = Ok (pre ++ w ++ x :: rest).
Proof.
  induction w as [|y w IH]; intros pre rest x a Ha; simpl; [done|].
  rewrite (Swap_apart pre [] (w ++ rest) x y) by (simpl; lia). simpl.
  replace (pre ++ y :: x :: w ++ rest) with ((pre ++ [y]) ++ x :: w ++ rest)
    by by rewrite <- app_assoc.
  rewrite IH by (rewrite length_app; simpl; lia).
  by rewrite <- app_assoc.
Qed.

(** [for k := i + len(w); k > i; k-- { Swap(k, k-1) }] carries the element
    after [w] to the left over [w]. *)
Lemma bubble_left (w : list A) :
  ∀ (pre rest : list A) (y : A) (i : nat),
  i = length pre →
  for_each (reverse (seq (i + 1) (length w))) (λ k data, Swap data k (k - 1))
    (pre ++ w ++ y :: rest)
  = Ok (pre ++ y :: w ++ rest).
Proof.
  induction w as [|x w IH] using rev_ind; intros pre rest y i Hi; [done|].
  rewrite length_app.
  replace (length w + length [x]) with (S (length w)) by (simpl; lia).
  rewrite seq_S, reverse_app. simpl.
  replace (pre ++ (w ++ [x]) ++ y :: rest)
    with ((pre ++ w) ++ x :: [] ++ y :: rest)
    by (by rewrite <- !app_assoc).
  rewrite (Swap_apart_rev (pre ++ w) [] rest x y)
    by (rewrite ?length_app; simpl; lia).
  simpl. rewrite <- app_assoc. rewrite IH by done.
  by rewrite <- app_assoc.
Qed.


(** [swapRange] exchanges two runs of equal length that do not overlap. *)
Lemma swapRange_loop (xs : list A) :
  ∀ (ys pre mid post : list A) (k a b : nat),
  length xs = length ys →
  a + k = length pre →
  b + k = length pre + length xs + length mid →
  for_each (seq k (length xs)) (λ i data, Swap data (a + i) (b + i))
    (pre ++ xs ++ mid ++ ys ++ post)
  = Ok (pre ++ ys ++ mid ++ xs ++ post).
Proof.
  induction xs as [|x xs IH]; intros [|y ys] pre mid post k a b Hlen Ha Hb;
    simplify_eq/=; [done|].
  replace (pre ++ x :: xs ++ mid ++ y :: ys ++ post)
    with (pre ++ x :: (xs ++ mid) ++ y :: ys ++ post)
    by (by rewrite <- !app_assoc).
  rewrite (Swap_apart pre (xs ++ mid) (ys ++ post) x y)
    by (rewrite ?length_app; lia).
  simpl.
  replace (pre ++ y :: (xs ++ mid) ++ x :: ys ++ post)
    with ((pre ++ [y]) ++ xs ++ (mid ++ [x]) ++ ys ++ post)
    by (by rewrite <- !app_assoc).
  rewrite (IH ys (pre ++ [y]) (mid ++ [x]) post (S k) a b)
    by (rewrite ?length_app; simpl; lia).
  by rewrite <- !app_assoc.
Qed.

Lemma swapRange_spec (xs ys pre mid post : list A) (a b n : nat) :
  length xs = n → length ys = n →
  a = length pre →
  b = length pre + n + length mid →
  swapRange (pre ++ xs ++ mid ++ ys ++ post) a b n
  = Ok (pre ++ ys ++ mid ++ xs ++ post).
Proof.
  intros <- Hys -> ->. unfold swapRange.
  apply swapRange_loop; [done|lia..].
Qed.

(** [rotate] exchanges two neighbouring runs. *)
Lemma length_pos (l : list A) : l ≠ [] → 0 < length l.
Proof. destruct l; [done|]. simpl. lia. Qed.

Lemma length_pos_inv (l : list A) : 0 < length l → l ≠ [].
Proof. destruct l; [simpl; lia|done]. Qed.

Lemma rotate_loop_spec (fuel : nat) :
  ∀ (us vs pre post : list A) (m : nat),
  length us + length vs ≤ fuel →
  us ≠ [] → vs ≠ [] →
  m = length pre + length us →
  rotate_loop fuel (pre ++ us ++ vs ++ post) m (length us) (length vs)
  = Ok (pre ++ vs ++ us ++ post).
Proof.
  induction fuel as [|fuel IH]; intros us vs pre post m Hfuel Hus Hvs Hm;
    apply length_pos in Hus, Hvs; [lia|].
  cbn [rotate_loop].
  destruct (decide (length us ≠ length vs)) as [Hne|Heq].
  - destruct (decide (length vs < length us)) as [Hlt|Hge].
    + rewrite <- (take_drop (length vs) us) at 1.
      rewrite <- app_assoc.
      rewrite (swapRange_spec (take (length vs) us) vs pre
                 (drop (length vs) us) post)
        by (rewrite ?length_take, ?length_drop; lia).
      simpl.
      replace (pre ++ vs ++ drop (length vs) us ++ take (length vs) us ++ post)
        with ((pre ++ vs) ++ drop (length vs) us
              ++ take (length vs) us ++ post)
        by (by rewrite <- !app_assoc).
      replace (length us - length vs) with (length (drop (length vs) us))
        by (rewrite length_drop; lia).
      replace (length vs) with (length (take (length vs) us)) at 4
        by (rewrite length_take; lia).
      rewrite IH.
      * rewrite <- !app_assoc. by rewrite (app_assoc (take _ _)), take_drop.
      * rewrite length_take, length_drop. lia.
      * apply length_pos_inv. rewrite length_drop. lia.
      * apply length_pos_inv. rewrite length_take. lia.
      * rewrite length_app, length_drop. lia.
    + set (d := length vs - length us).
      assert (length (drop d vs) = length us) as Hd1
        by (rewrite length_drop; unfold d; lia).
      assert (length (take d vs) = d) as Hd2
        by (rewrite length_take; unfold d; lia).
      rewrite <- (take_drop d vs) at 1.
      rewrite <- (app_assoc (take d vs)).
      rewrite (swapRange_spec us (drop d vs) pre (take d vs) post)
        by lia.
      simpl.
      specialize (IH (drop d vs) (take d vs) pre (us ++ post) m).
      rewrite Hd1, Hd2 in IH. rewrite IH.
      * by rewrite (app_assoc (take _ _)), take_drop.
      * unfold d. lia.
      * apply length_pos_inv. lia.
      * apply length_pos_inv. unfold d in *. lia.
      * lia.
  - apply dec_stable in Heq.
    replace (pre ++ us ++ vs ++ post) with (pre ++ us ++ [] ++ vs ++ post)
      by done.
    rewrite (swapRange_spec us vs pre [] post) by (simpl; lia). done.
Qed.

Lemma rotate_spec (us vs pre post : list A) (a m b : nat) :
  us ≠ [] → vs ≠ [] →
  a = length pre → m = a + length us → b = m + length vs →
  rotate (pre ++ us ++ vs ++ post) a m b = Ok (pre ++ vs ++ us ++ post).
Proof.
  intros Hus Hvs -> -> ->. unfold rotate.
  replace (length pre + length us - length pre) with (length us) by lia.
  replace (length pre + length us + length vs - (length pre + length us))
    with (length vs) by lia.
  apply rotate_loop_spec; [lia|done..].
Qed.

Lemma half_between (i j : nat) : i < j → i ≤ (i + j) / 2 < j.
Proof.
  intros Hij. split.
  - apply Nat.div_le_lower_bound; lia.
  - apply Nat.Div0.div_lt_upper_bound; lia.
Qed.

(** A binary search over a test that holds up to some point and fails
    from there on finds that point. *)
Lemma search_spec (P : nat → bool) (test : nat → result bool) (fuel : nat) :
  ∀ i j : nat,
  j - i ≤ fuel → i ≤ j →
  (∀ h, i ≤ h < j → test h = Ok (P h)) →
  (∀ h h', i ≤ h → h ≤ h' → h' < j → P h' = true → P h = true) →
  ∃ k, search fuel test i j = Ok k ∧ i ≤ k ≤ j ∧
       (∀ h, i ≤ h < k → P h = true) ∧
       (∀ h, k ≤ h < j → P h = false).
Proof.
  induction fuel as [|fuel IH]; intros i j Hfuel Hij Htest Hmono.
  { exists i. assert (i = j) as -> by lia. simpl.
    rewrite decide_False by lia. split_and!; [done|lia..]. }
  cbn [search]. destruct (decide (i < j)) as [Hlt|Hge].
  - pose proof (half_between i j Hlt) as Hh. cbv zeta.
    rewrite Htest by done. cbn [mbind result_bind].
    destruct (P ((i + j) / 2)) eqn:HP.
    + destruct (IH ((i + j) / 2 + 1) j) as (k & -> & Hk & Hlo & Hhi);
        [lia|lia| |  |].
      * intros h Hh'. apply Htest. lia.
      * intros h h' ? ? ?. apply Hmono; lia.
      * exists k. split_and!; [done|lia|lia| |done].
        intros h Hh'. destruct (decide (h ≤ (i + j) / 2)).
        -- apply (Hmono h ((i + j) / 2)); [lia..|done].
        -- apply Hlo. lia.
    + destruct (IH i ((i + j) / 2)) as (k & -> & Hk & Hlo & Hhi);
        [lia|lia| |  |].
      * intros h Hh'. apply Htest. lia.
      * intros h h' ? ? ?. apply Hmono; lia.
      * exists k. split_and!; [done|lia|lia|done|].
        intros h Hh'. destruct (decide (h < (i + j) / 2)).
        -- apply Hhi. lia.
        -- destruct (P h) eqn:HPh; [|done].
           rewrite (Hmono ((i + j) / 2) h) in HP; [done|lia..|done].
  - exists i. split_and!; [done|lia..].
Qed.


Lemma less_irrefl (x : A) : less x x = false.
Proof.
  destruct (less x x) eqn:Hx; [|done]. by rewrite (less_asym x x) in Hx.
Qed.

(** [x < y] and [y ≤ z] give [x < z]; [x ≤ y] and [y < z] give [x < z]. *)
Lemma less_le_trans (x y z : A) :
  less x y = true → less z y = false → less x z = true.
Proof.
  intros Hxy Hzy. destruct (less x z) eqn:Hxz; [done|].
  by rewrite (less_negtrans x z y) in Hxy.
Qed.

Lemma le_less_trans (x y z : A) :
  less y x = false → less y z = true → less x z = true.
Proof.
  intros Hyx Hyz. destruct (less x z) eqn:Hxz; [done|].
  by rewrite (less_negtrans y x z) in Hyz.
Qed.

Lemma sorted_lookup_le (l : list A) (i j : nat) (x y : A) :
  StronglySorted (may_precede less) l →
  i ≤ j → l !! i = Some x → l !! j = Some y → less y x = false.
Proof.
  intros Hl Hij Hi Hj. destruct (decide (i = j)) as [->|Hne].
  - simplify_eq. apply less_irrefl.
  - revert i j Hij Hne Hi Hj.
    induction Hl as [|z l Hl IH Hz]; intros i j Hij Hne Hi Hj; [done|].
    destruct j as [|j]; [lia|]. simpl in Hj. destruct i as [|i]; simpl in Hi.
    + simplify_eq. rewrite Forall_forall in Hz.
      apply Hz. by eapply list_elem_of_lookup_2.
    + apply (IH i j); [lia|lia|done..].
Qed.

(** Two neighbouring runs with no element of one tied with an element of
    the other can change places without changing what a class of tied
    elements looks like. *)
Lemma filter_tied_swap (z : A) (ls rs : list A) :
  (∀ x y, x ∈ ls → y ∈ rs → less y x = true) →
  filter (tied less z) (ls ++ rs) = filter (tied less z) (rs ++ ls).
Proof.
  intros Hlt. rewrite !filter_app.
  destruct (filter (tied less z) ls) as [|x fl] eqn:Hl;
    [simpl; by rewrite app_nil_r|].
  destruct (filter (tied less z) rs) as [|y fr] eqn:Hr;
    [simpl; by rewrite app_nil_r|].
  assert (x ∈ filter (tied less z) ls) as Hx by (rewrite Hl; left).
  assert (y ∈ filter (tied less z) rs) as Hy by (rewrite Hr; left).
  apply list_elem_of_filter in Hx as [[Hzx Hxz] Hx].
  apply list_elem_of_filter in Hy as [[Hzy Hyz] Hy].
  specialize (Hlt x y Hx Hy).
  by rewrite (less_negtrans y z x) in Hlt.
Qed.

Lemma stable_sort_of_refl (u : list A) :
  StronglySorted (may_precede less) u → stable_sort_of less u u.
Proof. by intros Hu. Qed.

(** Two stably sorted halves, the first wholly before the second, make a
    stably sorted whole. *)
Lemma stable_sort_of_app (u1 u2 w1 w2 : list A) :
  stable_sort_of less u1 w1 → stable_sort_of less u2 w2 →
  (∀ x y, x ∈ u1 → y ∈ u2 → less y x = false) →
  stable_sort_of less (u1 ++ u2) (w1 ++ w2).
Proof.
  intros (Hs1 & Hp1 & Hf1) (Hs2 & Hp2 & Hf2) Hcross. split_and!.
  - apply StronglySorted_app_2; [|done..].
    intros x y Hx Hy. rewrite Hp1 in Hx. rewrite Hp2 in Hy.
    by apply Hcross.
  - by rewrite Hp1, Hp2.
  - intros z. by rewrite !filter_app, Hf1, Hf2.
Qed.

Lemma stable_sort_of_eq (u u' w : list A) :
  stable_sort_of less u w →
  u ≡ₚ u' → (∀ z, filter (tied less z) u = filter (tied less z) u') →
  stable_sort_of less u' w.
Proof.
  intros (Hs & Hp & Hf) Hperm Hfilter. split_and!; [done|by rewrite Hp|].
  intros z. by rewrite Hf.
Qed.



Lemma lookup_segment (pre seg post : list A) (i a : nat) :
  a = length pre → a ≤ i < a + length seg →
  (pre ++ seg ++ post) !! i = seg !! (i - a).
Proof.
  intros -> Hi. rewrite lookup_app_r by lia. by rewrite lookup_app_l by lia.
Qed.

(** [symMerge] when the first run is a single element: it goes after the
    elements of the second run that are less than it. *)
Lemma symMerge_single_left (fuel : nat) (x : A) (v pre post : list A)
    (a m b : nat) :
  v ≠ [] → StronglySorted (may_precede less) v →
  a = length pre → m = a + 1 → b = m + length v →
  ∃ w, symMerge (S fuel) (pre ++ [x] ++ v ++ post) a m b
       = Ok (pre ++ w ++ post) ∧
       stable_sort_of less ([x] ++ v) w.
Proof.
  intros Hv Hsv Ha Hm Hb. apply length_pos in Hv.
  cbn [symMerge]. rewrite decide_True by lia.
  set (data := pre ++ [x] ++ v ++ post).
  set (P := λ h, match v !! (h - m) with
                 | Some y => less y x
                 | None => false
                 end).
  assert (data !! a = Some x) as Hx.
  { unfold data. simpl. by apply lookup_cut. }
  assert (∀ h, m ≤ h < b → data !! h = v !! (h - m)) as Hdata.
  { intros h Hh. unfold data. rewrite app_assoc.
    apply lookup_segment; [rewrite length_app; simpl; lia|lia]. }
  destruct (search_spec P (λ h, Less data h a) (b - m) m b)
    as (k & Hk & Hrange & Hlo & Hhi); [lia|lia| | |].
  { intros h Hh. destruct (lookup_lt_is_Some_2 v (h - m)) as [y Hy]; [lia|].
    rewrite (Less_lookup data h a y x); [|by rewrite Hdata|done].
    unfold P. by rewrite Hy. }
  { intros h h' Hh Hhh' Hh'. unfold P.
    destruct (lookup_lt_is_Some_2 v (h - m)) as [y Hy]; [lia|].
    destruct (lookup_lt_is_Some_2 v (h' - m)) as [y' Hy']; [lia|].
    rewrite Hy, Hy'. apply le_less_trans.
    apply (sorted_lookup_le v (h - m) (h' - m)); [done|lia|done..]. }
  rewrite Hk. cbn [mbind result_bind].
  set (k' := k - m).
  assert (length (take k' v) = k') as Hlen1 by (rewrite length_take; lia).
  assert (∀ y, y ∈ take k' v → less y x = true) as Hv1.
  { intros y [i Hi]%list_elem_of_lookup.
    apply lookup_take_Some in Hi as [Hi Hik].
    specialize (Hlo (m + i)). unfold P in Hlo.
    replace (m + i - m) with i in Hlo by lia. rewrite Hi in Hlo.
    apply Hlo. lia. }
  assert (∀ y, y ∈ drop k' v → less y x = false) as Hv2.
  { intros y [i Hi]%list_elem_of_lookup. rewrite lookup_drop in Hi.
    pose proof (lookup_lt_Some _ _ _ Hi) as Hlt.
    specialize (Hhi (m + (k' + i))). unfold P in Hhi.
    replace (m + (k' + i) - m) with (k' + i) in Hhi by lia.
    rewrite Hi in Hhi. apply Hhi. lia. }
  exists (take k' v ++ x :: drop k' v). split.
  - unfold data. rewrite <- (take_drop k' v) at 1. simpl.
    rewrite <- !app_assoc.
    replace (k - 1 - a) with (length (take k' v)) by lia.
    by rewrite bubble_right.
  - rewrite <- (take_drop k' v) in Hsv.
    apply StronglySorted_app in Hsv as (Hcross & Hs1 & Hs2). split_and!.
    + apply StronglySorted_app_2; [|done|].
      * intros y1 y2 Hy1 [->|Hy2]%elem_of_cons; [|by apply Hcross].
        apply less_asym. by apply Hv1.
      * constructor; [done|]. apply Forall_forall. intros y Hy.
        by apply Hv2.
    + rewrite <- (take_drop k' v) at 3. simpl.
      by rewrite Permutation_middle.
    + intros z. rewrite <- (take_drop k' v) at 3.
      change (take k' v ++ x :: drop k' v)
        with (take k' v ++ [x] ++ drop k' v).
      rewrite !(app_assoc _ _ (drop k' v)), !(filter_app _ _ (drop k' v)).
      f_equal. symmetry. apply filter_tied_swap.
      intros x' y ->%list_elem_of_singleton Hy. by apply Hv1.
Qed.


(** [symMerge] when the second run is a single element: it goes before
    the elements of the first run that it is less than. *)
Lemma symMerge_single_right (fuel : nat) (y : A) (u pre post : list A)
    (a m b : nat) :
  length u ≠ 1 → u ≠ [] → StronglySorted (may_precede less) u →
  a = length pre → m = a + length u → b = m + 1 →
  ∃ w, symMerge (S fuel) (pre ++ u ++ [y] ++ post) a m b
       = Ok (pre ++ w ++ post) ∧
       stable_sort_of less (u ++ [y]) w.
Proof.
  intros Hu1 Hu Hsu Ha Hm Hb. apply length_pos in Hu.
  cbn [symMerge]. rewrite decide_False by lia. rewrite decide_True by lia.
  set (data := pre ++ u ++ [y] ++ post).
  set (P := λ h, match u !! (h - a) with
                 | Some x => negb (less y x)
                 | None => false
                 end).
  assert (data !! m = Some y) as Hy.
  { unfold data. rewrite app_assoc. simpl. apply lookup_cut.
    rewrite length_app. lia. }
  assert (∀ h, a ≤ h < m → data !! h = u !! (h - a)) as Hdata.
  { intros h Hh. unfold data. apply lookup_segment; [done|lia]. }
  destruct (search_spec P (λ h, less ← Less data m h; Ok (negb less))
              (m - a) a m)
    as (k & Hk & Hrange & Hlo & Hhi); [lia|lia| | |].
  { intros h Hh. destruct (lookup_lt_is_Some_2 u (h - a)) as [x Hx]; [lia|].
    rewrite (Less_lookup data m h y x); [|done|by rewrite Hdata].
    unfold P. by rewrite Hx. }
  { intros h h' Hh Hhh' Hh'. unfold P.
    destruct (lookup_lt_is_Some_2 u (h - a)) as [x Hx]; [lia|].
    destruct (lookup_lt_is_Some_2 u (h' - a)) as [x' Hx']; [lia|].
    rewrite Hx, Hx', !negb_true_iff. intros Hyx'.
    apply (less_negtrans y x' x); [done|].
    apply (sorted_lookup_le u (h - a) (h' - a)); [done|lia|done..]. }
  rewrite Hk. cbn [mbind result_bind].
  set (k' := k - a).
  assert (length (take k' u) = k') as Hlen1 by (rewrite length_take; lia).
  assert (length (drop k' u) = m - k) as Hlen2 by (rewrite length_drop; lia).
  assert (∀ x, x ∈ take k' u → less y x = false) as Hu1'.
  { intros x [i Hi]%list_elem_of_lookup.
    apply lookup_take_Some in Hi as [Hi Hik].
    specialize (Hlo (a + i)). unfold P in Hlo.
    replace (a + i - a) with i in Hlo by lia. rewrite Hi in Hlo.
    apply negb_true_iff, Hlo. lia. }
  assert (∀ x, x ∈ drop k' u → less y x = true) as Hu2.
  { intros x [i Hi]%list_elem_of_lookup. rewrite lookup_drop in Hi.
    pose proof (lookup_lt_Some _ _ _ Hi) as Hlt.
    specialize (Hhi (a + (k' + i))). unfold P in Hhi.
    replace (a + (k' + i) - a) with (k' + i) in Hhi by lia.
    rewrite Hi in Hhi. apply negb_false_iff, Hhi. lia. }
  exists (take k' u ++ y :: drop k' u). split.
  - unfold data. rewrite <- (take_drop k' u) at 1. simpl.
    rewrite <- Hlen2.
    replace (pre ++ (take k' u ++ drop k' u) ++ y :: post)
      with ((pre ++ take k' u) ++ drop k' u ++ y :: post)
      by (by rewrite <- !app_assoc).
    rewrite bubble_left by (rewrite length_app; lia).
    by rewrite <- !app_assoc.
  - rewrite <- (take_drop k' u) in Hsu.
    apply StronglySorted_app in Hsu as (Hcross & Hs1 & Hs2). split_and!.
    + apply StronglySorted_app_2; [|done|].
      * intros x1 z Hx1 [->|Hz]%elem_of_cons; [|by apply Hcross].
        by apply Hu1'.
      * constructor; [done|]. apply Forall_forall. intros x Hx.
        apply less_asym. by apply Hu2.
    + rewrite <- (take_drop k' u) at 3. rewrite <- app_assoc.
      by rewrite <- Permutation_cons_append.
    + intros z. rewrite <- (take_drop k' u) at 3. rewrite <- app_assoc.
      rewrite !(filter_app _ (take k' u)). f_equal.
      change (y :: drop k' u) with ([y] ++ drop k' u).
      symmetry. apply filter_tied_swap.
      intros x y' Hx ->%list_elem_of_singleton. by apply Hu2.
Qed.


Lemma half_spec (x : nat) : 2 * (x / 2) ≤ x < 2 * (x / 2) + 2.
Proof.
  pose proof (Nat.div_mod_eq x 2) as Heq.
  pose proof (Nat.mod_upper_bound x 2) as Hlt. lia.
Qed.

(** [symMerge] merges two neighbouring sorted runs stably. *)
Lemma symMerge_spec (fuel : nat) :
  ∀ (u v pre post : list A) (a m b : nat),
  length u + length v ≤ fuel →
  u ≠ [] → v ≠ [] →
  StronglySorted (may_precede less) u →
  StronglySorted (may_precede less) v →
  a = length pre → m = a + length u → b = m + length v →
  ∃ w, symMerge fuel (pre ++ u ++ v ++ post) a m b = Ok (pre ++ w ++ post) ∧
       stable_sort_of less (u ++ v) w.
Proof.
  induction fuel as [|fuel IH];
    intros u v pre post a m b Hfuel Hu Hv Hsu Hsv Ha Hm Hb.
  { apply length_pos in Hu. lia. }
  destruct (decide (length u = 1)) as [Hu1|Hu1].
  { destruct u as [|x [|??]]; simplify_eq/=.
    apply (symMerge_single_left fuel x v pre post); [done..|lia|lia]. }
  destruct (decide (length v = 1)) as [Hv1|Hv1].
  { destruct v as [|y [|??]]; simplify_eq/=.
    apply (symMerge_single_right fuel y u pre post); [done..|lia]. }
  apply length_pos in Hu as Hu', Hv as Hv'.
  cbn [symMerge]. rewrite !decide_False by lia. cbv zeta.
  set (mid := (a + b) / 2).
  pose proof (half_spec (a + b)) as Hmid. fold mid in Hmid.
  set (start0 := if decide (mid < m) then mid + m - b else a).
  set (r0 := if decide (mid < m) then mid else m).
  assert (a ≤ start0 ∧ start0 ≤ r0 ∧ r0 ≤ m ∧ r0 ≤ mid ∧ mid + m - b ≤ start0)
    as (Hs0a & Hs0r & Hr0m & Hr0mid & Hs0b).
  { unfold start0, r0. case_decide; lia. }
  set (data := pre ++ u ++ v ++ post).
  set (P := λ c, match u !! (c - a), v !! (mid - 1 - c) with
                 | Some x, Some y => negb (less y x)
                 | _, _ => false
                 end).
  assert (∀ h, a ≤ h < m → data !! h = u !! (h - a)) as Hdu.
  { intros h Hh. unfold data. apply lookup_segment; [done|lia]. }
  assert (∀ h, m ≤ h < b → data !! h = v !! (h - m)) as Hdv.
  { intros h Hh. unfold data. rewrite app_assoc.
    apply lookup_segment; [rewrite length_app; lia|lia]. }
  destruct (search_spec P
              (λ c, less ← Less data (mid + m - 1 - c) c; Ok (negb less))
              (r0 - start0) start0 r0)
    as (s & Hs & Hrange & Hlo & Hhi); [lia|lia| | |].
  { intros c Hc.
    destruct (lookup_lt_is_Some_2 u (c - a)) as [x Hx]; [lia|].
    destruct (lookup_lt_is_Some_2 v (mid - 1 - c)) as [y Hy]; [lia|].
    rewrite (Less_lookup data (mid + m - 1 - c) c y x).
    - unfold P. by rewrite Hx, Hy.
    - rewrite Hdv by lia. rewrite <- Hy. f_equal. lia.
    - by rewrite Hdu by lia. }
  { intros c c' Hc Hcc' Hc'. unfold P.
    destruct (lookup_lt_is_Some_2 u (c - a)) as [x Hx]; [lia|].
    destruct (lookup_lt_is_Some_2 v (mid - 1 - c)) as [y Hy]; [lia|].
    destruct (lookup_lt_is_Some_2 u (c' - a)) as [x' Hx']; [lia|].
    destruct (lookup_lt_is_Some_2 v (mid - 1 - c')) as [y' Hy']; [lia|].
    rewrite Hx, Hy, Hx', Hy', !negb_true_iff. intros Hyx'.
    apply (less_negtrans y x' x).
    - apply (less_negtrans y y' x'); [|done].
      apply (sorted_lookup_le v (mid - 1 - c') (mid - 1 - c)); [done|lia|done..].
    - apply (sorted_lookup_le u (c - a) (c' - a)); [done|lia|done..]. }
  rewrite Hs. cbn [mbind result_bind].
  set (s' := s - a). set (t := mid - s).
  assert (length (take s' u) = s') as Hlu1 by (rewrite length_take; lia).
  assert (length (drop s' u) = m - s) as Hlu2 by (rewrite length_drop; lia).
  assert (length (take t v) = t) as Hlv1 by (rewrite length_take; lia).
  assert (length (drop t v) = b - (mid + m - s)) as Hlv2
    by (rewrite length_drop; lia).
  (* every element of the part of [v] that moves left is less than every
     element of the part of [u] that moves right *)
  assert (∀ x y, x ∈ drop s' u → y ∈ take t v → less y x = true) as Hmove.
  { intros x y [i Hi]%list_elem_of_lookup [j Hj]%list_elem_of_lookup.
    rewrite lookup_drop in Hi. apply lookup_take_Some in Hj as [Hj Hjt].
    pose proof (lookup_lt_Some _ _ _ Hi) as Hilt.
    destruct (lookup_lt_is_Some_2 u s') as [x0 Hx0]; [lia|].
    destruct (lookup_lt_is_Some_2 v (t - 1)) as [y0 Hy0]; [lia|].
    assert (less y0 x0 = true) as H0.
    { specialize (Hhi s). unfold P in Hhi. fold s' in Hhi.
      replace (mid - 1 - s) with (t - 1) in Hhi by lia.
      rewrite Hx0, Hy0 in Hhi. apply negb_false_iff, Hhi.
      unfold r0. case_decide; lia. }
    apply (less_le_trans y x0 x).
    - apply (le_less_trans y y0 x0); [|done].
      apply (sorted_lookup_le v j (t - 1)); [done|lia|done..].
    - apply (sorted_lookup_le u s' (s' + i)); [done|lia|done..]. }
  (* no element of the part of [v] that stays is less than an element of
     the part of [u] that stays *)
  assert (∀ x y, x ∈ take s' u → y ∈ drop t v → less y x = false) as Hstay.
  { intros x y [i Hi]%list_elem_of_lookup [j Hj]%list_elem_of_lookup.
    rewrite lookup_drop in Hj. apply lookup_take_Some in Hi as [Hi His].
    pose proof (lookup_lt_Some _ _ _ Hj) as Hjlt.
    destruct (lookup_lt_is_Some_2 u (s' - 1)) as [x0 Hx0]; [lia|].
    destruct (lookup_lt_is_Some_2 v t) as [y0 Hy0]; [lia|].
    assert (less y0 x0 = false) as H0.
    { specialize (Hlo (s - 1)). unfold P in Hlo.
      replace (s - 1 - a) with (s' - 1) in Hlo by lia.
      replace (mid - 1 - (s - 1)) with t in Hlo by lia.
      rewrite Hx0, Hy0 in Hlo. apply negb_true_iff, Hlo.
      unfold start0 in *. case_decide; lia. }
    apply (less_negtrans y x0 x).
    - apply (less_negtrans y y0 x0); [|done].
      apply (sorted_lookup_le v t (t + j)); [done|lia|done..].
    - apply (sorted_lookup_le u i (s' - 1)); [done|lia|done..]. }
  assert (u = take s' u ++ drop s' u) as Hu_eq by (by rewrite take_drop).
  assert (v = take t v ++ drop t v) as Hv_eq by (by rewrite take_drop).
  set (u1 := take s' u) in *. set (u2 := drop s' u) in *.
  set (v1 := take t v) in *. set (v2 := drop t v) in *.
  rewrite Hu_eq in Hsu. apply StronglySorted_app in Hsu as (Hcu & Hsu1 & Hsu2).
  rewrite Hv_eq in Hsv. apply StronglySorted_app in Hsv as (Hcv & Hsv1 & Hsv2).
  (* the rotation *)
  assert ((if decide (s < m ∧ m < mid + m - s)
           then rotate data s m (mid + m - s) else Ok data)
          = Ok (pre ++ u1 ++ v1 ++ u2 ++ v2 ++ post))
    as ->.
  { unfold data. rewrite Hu_eq, Hv_eq. case_decide as Hrot.
    - replace (pre ++ (u1 ++ u2) ++ (v1 ++ v2) ++ post)
        with ((pre ++ u1) ++ u2 ++ v1 ++ v2 ++ post)
        by (by rewrite <- !app_assoc).
      rewrite (rotate_spec u2 v1 (pre ++ u1) (v2 ++ post));
        [by rewrite <- !app_assoc
        |apply length_pos_inv; lia|apply length_pos_inv; lia
        |rewrite length_app; lia|lia|lia].
    - assert (u2 = [] ∨ v1 = []) as [Hnil|Hnil].
      { destruct (decide (s < m)).
        - right. apply length_zero_iff_nil. lia.
        - left. apply length_zero_iff_nil. lia. }
      + rewrite Hnil. by rewrite !app_nil_r, <- !app_assoc.
      + rewrite Hnil. by rewrite <- !app_assoc. }
  cbn [mbind result_bind].
  (* the first half *)
  assert (∃ w1, (if decide (a < s ∧ s < mid)
                 then symMerge fuel
                        (pre ++ u1 ++ v1 ++ u2 ++ v2 ++ post) a s mid
                 else Ok (pre ++ u1 ++ v1 ++ u2 ++ v2 ++ post))
                = Ok (pre ++ w1 ++ u2 ++ v2 ++ post) ∧
                stable_sort_of less (u1 ++ v1) w1)
    as (w1 & -> & Hw1).
  { case_decide as Hc.
    - apply (IH u1 v1 pre (u2 ++ v2 ++ post));
        [lia|apply length_pos_inv; lia|apply length_pos_inv; lia
        |done|done|done|lia|lia].
    - exists (u1 ++ v1). split; [by rewrite <- !app_assoc|].
      apply stable_sort_of_refl.
      assert (u1 = [] ∨ v1 = []) as [Hnil|Hnil].
      { destruct (decide (a < s)).
        - right. apply length_zero_iff_nil. lia.
        - left. apply length_zero_iff_nil. lia. }
      + by rewrite Hnil.
      + by rewrite Hnil, app_nil_r. }
  cbn [mbind result_bind].
  assert (length w1 = mid - a) as Hlw1.
  { destruct Hw1 as (_ & Hp & _). rewrite Hp, length_app. lia. }
  (* the second half *)
  assert (∃ w2, (if decide (mid < mid + m - s ∧ mid + m - s < b)
                 then symMerge fuel (pre ++ w1 ++ u2 ++ v2 ++ post)
                        mid (mid + m - s) b
                 else Ok (pre ++ w1 ++ u2 ++ v2 ++ post))
                = Ok (pre ++ w1 ++ w2 ++ post) ∧
                stable_sort_of less (u2 ++ v2) w2)
    as (w2 & -> & Hw2).
  { case_decide as Hc.
    - destruct (IH u2 v2 (pre ++ w1) post mid (mid + m - s) b)
        as (w2 & Hw2 & Hsw2);
        [lia|apply length_pos_inv; lia|apply length_pos_inv; lia
        |done|done|rewrite length_app; lia|lia|lia|].
      exists w2. rewrite <- !app_assoc in Hw2. by rewrite Hw2.
    - exists (u2 ++ v2). split; [by rewrite <- !app_assoc|].
      apply stable_sort_of_refl.
      assert (u2 = [] ∨ v2 = []) as [Hnil|Hnil].
      { destruct (decide (s < m)).
        - right. apply length_zero_iff_nil. lia.
        - left. apply length_zero_iff_nil. lia. }
      + by rewrite Hnil.
      + by rewrite Hnil, app_nil_r. }
  exists (w1 ++ w2). split; [by rewrite <- !app_assoc|].
  rewrite Hu_eq, Hv_eq.
  apply (stable_sort_of_eq ((u1 ++ v1) ++ (u2 ++ v2))).
  - apply stable_sort_of_app; [done..|].
    intros x y [Hx|Hx]%elem_of_app [Hy|Hy]%elem_of_app.
    + by apply Hcu.
    + by apply Hstay.
    + apply less_asym. by apply Hmove.
    + by apply Hcv.
  - rewrite <- !app_assoc. f_equiv.
    rewrite !app_assoc. f_equiv. apply Permutation_app_comm.
  - intros z.
    rewrite <- !app_assoc. rewrite !(filter_app _ u1). f_equal.
    rewrite !app_assoc. rewrite !(filter_app _ _ v2). f_equal.
    symmetry. by apply filter_tied_swap.
Qed.


Lemma insertion_sorted_stable_sort_of (l : list A) :
  stable_sort_of less l (insertion_sorted less l).
Proof.
  split_and!.
  - apply insertion_sorted_sorted.
  - apply insertion_sorted_Permutation.
  - intros z. apply insertion_sorted_tied.
Qed.

(** The inner loop of [insertionSort], started on the element after a
    prefix whose reverse is [r], moves that element left as [move_left]
    does. *)
Lemma insertionSort_inner_move_left (r : list A) :
  ∀ (pre post : list A) (x : A) (a : nat),
  a = length pre →
  insertionSort_inner (pre ++ reverse r ++ x :: post) a (a + length r)
  = Ok (pre ++ reverse (move_left less x r) ++ post).
Proof.
  induction r as [|y r IH]; intros pre post x a ->.
  - simpl. rewrite Nat.add_0_r.
    destruct (length pre) as [|n] eqn:Hn; simpl; [done|].
    by rewrite decide_False by lia.
  - cbn [length move_left]. rewrite Nat.add_succ_r.
    cbn [insertionSort_inner]. rewrite decide_True by lia.
    rewrite reverse_cons.
    assert (pre ++ (reverse r ++ [y]) ++ x :: post
            = (pre ++ reverse r) ++ y :: [] ++ x :: post) as ->.
    { by rewrite <- !app_assoc. }
    assert (length (pre ++ reverse r) = length pre + length r) as Hlen.
    { by rewrite length_app, length_reverse. }
    rewrite (Less_lookup _ _ _ x y);
      [|change (y :: [] ++ x :: post) with ([y] ++ x :: post);
        rewrite app_assoc; apply lookup_cut;
        rewrite length_app; simpl; lia
       |apply lookup_cut; lia].
    cbn [mbind result_bind]. destruct (less x y).
    + rewrite (Swap_apart_rev (pre ++ reverse r) [] post y x)
        by (simpl; lia).
      cbn [mbind result_bind]. simpl.
      rewrite <- app_assoc, IH by done.
      by rewrite reverse_cons, <- !app_assoc.
    + simpl. by rewrite !reverse_cons, <- !app_assoc.
Qed.

Lemma insertionSort_loop (next : list A) :
  ∀ (pre r post : list A) (a : nat),
  a = length pre →
  for_each (seq (a + length r) (length next))
    (λ i data, insertionSort_inner data a i)
    (pre ++ reverse r ++ next ++ post)
  = Ok (pre ++ reverse (fold_left (λ r x, move_left less x r) next r)
          ++ post).
Proof.
  induction next as [|x next IH]; intros pre r post a Ha; simpl; [done|].
  rewrite insertionSort_inner_move_left by done. cbn [mbind result_bind].
  specialize (IH pre (move_left less x r) post a Ha).
  rewrite length_move_left, Nat.add_succ_r in IH. by rewrite IH.
Qed.

(** [insertionSort] sorts a segment of the slice stably. *)
Lemma insertionSort_spec (seg pre post : list A) (a b : nat) :
  a = length pre → b = a + length seg →
  insertionSort (pre ++ seg ++ post) a b
  = Ok (pre ++ insertion_sorted less seg ++ post).
Proof.
  intros Ha Hb. unfold insertionSort, insertion_sorted.
  destruct seg as [|x seg].
  - replace (b - (a + 1)) with 0 by (simpl in *; lia). done.
  - replace (b - (a + 1)) with (length seg) by (simpl in *; lia).
    apply (insertionSort_loop seg pre [x] post a Ha).
Qed.


(** *** Blocks *)

Lemma blocks_small (bs : nat) (l : list A) :
  blocks less bs l → length l ≤ bs → StronglySorted (may_precede less) l.
Proof. intros Hb Hl. specialize (Hb 0). by rewrite take_ge in Hb. Qed.

Lemma blocks_last (bs : nat) (l : list A) :
  length l ≤ bs → StronglySorted (may_precede less) l → blocks less bs l.
Proof.
  intros Hl Hs [|k].
  - by rewrite take_ge.
  - rewrite drop_ge by (simpl; lia). rewrite take_nil. constructor.
Qed.

Lemma blocks_cons (bs : nat) (u l : list A) :
  length u = bs → StronglySorted (may_precede less) u →
  blocks less bs l → blocks less bs (u ++ l).
Proof.
  intros Hu Hs Hb [|k].
  - rewrite Nat.mul_0_l, drop_0. by rewrite take_app_length'.
  - replace (S k * bs) with (length u + k * bs) by lia.
    rewrite drop_app_add. apply Hb.
Qed.

Lemma blocks_split (bs : nat) (l : list A) :
  blocks less bs l →
  StronglySorted (may_precede less) (take bs l) ∧ blocks less bs (drop bs l).
Proof.
  intros Hb. split.
  - apply (Hb 0).
  - intros k. rewrite drop_drop. replace (bs + k * bs) with (S k * bs) by lia.
    apply Hb.
Qed.

(** One pass merges the blocks two by two. *)
Lemma stable_pass_spec (fuel : nat) :
  ∀ (done rest : list A) (a n bs : nat),
  0 < bs → length rest ≤ fuel →
  a = length done → n = a + length rest →
  blocks less bs rest →
  ∃ rest', stable_pass fuel (done ++ rest) a (a + 2 * bs) n bs
           = Ok (done ++ rest') ∧
           blocks less (2 * bs) rest' ∧ rest' ≡ₚ rest ∧
           ∀ z, filter (tied less z) rest' = filter (tied less z) rest.
Proof.
  induction fuel as [|fuel IH]; intros done rest a n bs Hbs Hfuel Ha Hn Hblocks.
  { destruct rest; [|simpl in Hfuel; lia]. exists []. simpl in *.
    rewrite decide_False by lia. rewrite decide_False by lia.
    split_and!; [done| |done..]. apply blocks_last; [simpl; lia|constructor]. }
  cbn [stable_pass]. destruct (decide (a + 2 * bs ≤ n)) as [Hle|Hgt].
  - apply blocks_split in Hblocks as [Hu Hblocks].
    apply blocks_split in Hblocks as [Hv Hblocks].
    set (u := take bs rest) in *. set (l1 := drop bs rest) in *.
    set (v := take bs l1) in *. set (l2 := drop bs l1) in *.
    assert (rest = u ++ v ++ l2) as Hrest.
    { unfold u, v, l2, l1. by rewrite !take_drop. }
    assert (length u = bs) as Hlu by (unfold u; rewrite length_take; lia).
    assert (length l1 = length rest - bs) as Hll1
      by (unfold l1; rewrite length_drop; lia).
    assert (length v = bs) as Hlv by (unfold v; rewrite length_take; lia).
    assert (length l2 = length rest - 2 * bs) as Hll2
      by (unfold l2; rewrite length_drop; lia).
    rewrite Hrest.
    destruct (symMerge_spec (a + 2 * bs - a) u v done l2 a (a + bs)
                (a + 2 * bs))
      as (w & -> & Hw);
      [lia|apply length_pos_inv; lia|apply length_pos_inv; lia
      |done|done|done|lia|lia|].
    cbn [mbind result_bind].
    assert (length w = 2 * bs) as Hlw.
    { destruct Hw as (_ & Hp & _). rewrite Hp, length_app. lia. }
    destruct (IH (done ++ w) l2 (a + 2 * bs) n bs)
      as (rest' & Hpass & Hb' & Hp' & Hf');
      [done|lia|rewrite length_app; lia|lia|done|].
    rewrite <- app_assoc in Hpass. rewrite Hpass.
    exists (w ++ rest'). destruct Hw as (Hsw & Hpw & Hfw). split_and!.
    + by rewrite <- app_assoc.
    + by apply blocks_cons.
    + by rewrite Hp', Hpw, <- app_assoc.
    + intros z. by rewrite !app_assoc, !filter_app, Hf', Hfw, filter_app.
  - cbv zeta. destruct (decide (a + bs < n)) as [Hlt|Hge].
    + apply blocks_split in Hblocks as [Hu Hblocks].
      set (u := take bs rest) in *. set (v := drop bs rest) in *.
      assert (rest = u ++ v) as Hrest by (unfold u, v; by rewrite take_drop).
      assert (length u = bs) as Hlu by (unfold u; rewrite length_take; lia).
      assert (length v = length rest - bs) as Hlv
        by (unfold v; rewrite length_drop; lia).
      apply blocks_small in Hblocks; [|lia].
      rewrite Hrest.
      destruct (symMerge_spec (n - a) u v done [] a (a + bs) n)
        as (w & Hmerge & Hw);
        [lia|apply length_pos_inv; lia|apply length_pos_inv; lia
        |done|done|done|lia|lia|].
      rewrite !app_nil_r in Hmerge. rewrite Hmerge.
      exists w. destruct Hw as (Hsw & Hpw & Hfw). split_and!; [done| |done..].
      apply blocks_last; [|done]. rewrite Hpw, length_app. lia.
    + exists rest. split_and!; [done| |done..].
      apply blocks_last; [lia|]. apply (blocks_small bs); [done|lia].
Qed.

(** The passes, each doubling the block size, end with one sorted block. *)
Lemma stable_passes_spec (fuel : nat) :
  ∀ (data : list A) (n bs : nat),
  0 < bs → n = length data → n - bs ≤ fuel →
  blocks less bs data →
  ∃ data', stable_passes fuel data n bs = Ok data' ∧
           StronglySorted (may_precede less) data' ∧ data' ≡ₚ data ∧
           ∀ z, filter (tied less z) data' = filter (tied less z) data.
Proof.
  induction fuel as [|fuel IH]; intros data n bs Hbs Hn Hfuel Hblocks.
  { exists data. simpl. rewrite decide_False by lia.
    split_and!; [done| |done..]. apply (blocks_small bs); [done|lia]. }
  cbn [stable_passes]. destruct (decide (bs < n)) as [Hlt|Hge].
  - destruct (stable_pass_spec n [] data 0 n bs)
      as (data1 & Hpass & Hb1 & Hp1 & Hf1); [done|lia|done|simpl; lia|done|].
    simpl in Hpass. simpl. rewrite Hpass. cbn [mbind result_bind].
    destruct (IH data1 n (2 * bs)) as (data' & Hpasses & Hs' & Hp' & Hf');
      [lia|by rewrite Hp1|lia|done|].
    simpl in Hpasses. rewrite Hpasses.
    exists data'. split_and!; [done|done|by rewrite Hp', Hp1|].
    intros z. by rewrite Hf', Hf1.
  - exists data. split_and!; [done| |done..].
    apply (blocks_small bs); [done|lia].
Qed.

(** The first loop sorts block after block. *)
Lemma stable_blocks_spec (fuel : nat) :
  ∀ (done rest : list A) (a n bs : nat),
  0 < bs → length rest ≤ fuel →
  a = length done → n = a + length rest →
  ∃ rest', stable_blocks fuel (done ++ rest) a (a + bs) n bs
           = Ok (done ++ rest') ∧
           blocks less bs rest' ∧ rest' ≡ₚ rest ∧
           ∀ z, filter (tied less z) rest' = filter (tied less z) rest.
Proof.
  induction fuel as [|fuel IH]; intros done rest a n bs Hbs Hfuel Ha Hn.
  { destruct rest; [|simpl in Hfuel; lia]. exists []. simpl in *.
    rewrite decide_False by lia.
    split_and!; [|apply blocks_last; [simpl; lia|constructor]|done..].
    apply (insertionSort_spec [] done [] a n); simpl; lia. }
  cbn [stable_blocks]. destruct (decide (a + bs ≤ n)) as [Hle|Hgt].
  - set (u := take bs rest). set (l1 := drop bs rest).
    assert (rest = u ++ l1) as Hrest by (unfold u, l1; by rewrite take_drop).
    assert (length u = bs) as Hlu by (unfold u; rewrite length_take; lia).
    assert (length l1 = length rest - bs) as Hll1
      by (unfold l1; rewrite length_drop; lia).
    rewrite Hrest.
    rewrite (insertionSort_spec u done l1 a (a + bs)) by lia.
    cbn [mbind result_bind].
    destruct (insertion_sorted_stable_sort_of u) as (Hsw & Hpw & Hfw).
    set (w := insertion_sorted less u) in *.
    assert (length w = bs) as Hlw by (rewrite Hpw; lia).
    destruct (IH (done ++ w) l1 (a + bs) n bs)
      as (rest' & Hrec & Hb' & Hp' & Hf');
      [done|lia|rewrite length_app; lia|lia|].
    rewrite <- app_assoc in Hrec. rewrite Hrec.
    exists (w ++ rest'). split_and!.
    + by rewrite <- app_assoc.
    + by apply blocks_cons.
    + by rewrite Hp', Hpw.
    + intros z. by rewrite !filter_app, Hf', Hfw.
  - assert (insertionSort (done ++ rest) a n
            = Ok (done ++ insertion_sorted less rest)) as ->.
    { rewrite <- (app_nil_r (insertion_sorted less rest)).
      rewrite <- (insertionSort_spec rest done [] a n) by lia.
      by rewrite app_nil_r. }
    destruct (insertion_sorted_stable_sort_of rest) as (Hsw & Hpw & Hfw).
    exists (insertion_sorted less rest). split_and!; [done| |done..].
    apply blocks_last; [|done]. rewrite Hpw. lia.
Qed.

(** [sort.Stable] sorts the slice stably. *)
Lemma stable_spec (data : list A) :
  ∃ data', stable data (length data) = Ok data' ∧
           stable_sort_of less data data'.
Proof.
  unfold stable.
  destruct (stable_blocks_spec (length data) [] data 0 (length data) 20)
    as (data1 & Hblocks & Hb1 & Hp1 & Hf1); [lia|lia|done|simpl; lia|].
  simpl in Hblocks. rewrite Hblocks. cbn [mbind result_bind].
  destruct (stable_passes_spec (length data) data1 (length data) 20)
    as (data' & Hpasses & Hs' & Hp' & Hf'); [lia|by rewrite Hp1|lia|done|].
  rewrite Hpasses. exists data'. unfold stable_sort_of.
  split_and!; [done|done|by rewrite Hp', Hp1|].
  intros z. by rewrite Hf', Hf1.
Qed.

Lemma sort_Stable_stable_sort (data : list A) :
  sort_Stable data = Ok (insertion_sorted less data).
Proof.
  unfold sort_Stable. rewrite Len_list.
  destruct (stable_spec data) as (data' & -> & Hs & Hp & Hf).
  f_equal. apply stable_sort_unique; [done| |].
  - apply insertion_sorted_sorted.
  - intros z. by rewrite Hf, insertion_sorted_tied.
Qed.

End StableSortFacts.

(** ** The order of [Less] *)

Lemma cmp_lex_Lt (c1 c2 : comparison) :
  cmp_lex c1 c2 = Lt ↔ c1 = Lt ∨ (c1 = Eq ∧ c2 = Lt).
Proof. destruct c1; simpl; intuition congruence. Qed.

Lemma cmp_lex_Eq (c1 c2 : comparison) :
  cmp_lex c1 c2 = Eq ↔ c1 = Eq ∧ c2 = Eq.
Proof. destruct c1; simpl; intuition congruence. Qed.

Lemma cmp_lex_not_Gt (c1 c2 : comparison) :
  cmp_lex c1 c2 ≠ Gt ↔ c1 = Lt ∨ (c1 = Eq ∧ c2 ≠ Gt).
Proof. destruct c1; simpl; intuition congruence. Qed.

(** In a weak order, the answers for [x, y] and [y, z] fix the answer for
    [x, z] whenever neither is [Gt]. *)
Lemma weak_order_table {A} (c : A → A → comparison) (x y z : A) :
  weak_order c →
  (c x y = Eq → c y z = Eq → c x z = Eq) ∧
  (c x y = Lt → c y z ≠ Gt → c x z = Lt) ∧
  (c x y ≠ Gt → c y z = Lt → c x z = Lt).
Proof.
  intros [Hopp Htr].
  pose proof (Htr x y z) as H1. pose proof (Htr z x y) as H2.
  pose proof (Htr y z x) as H3. pose proof (Htr z y x) as H4.
  rewrite (Hopp x z), (Hopp y z), (Hopp x y) in *.
  destruct (c x y), (c y z), (c x z); simpl in *; naive_solver.
Qed.

Lemma weak_order_lex {A} (c1 c2 : A → A → comparison) :
  weak_order c1 → weak_order c2 →
  weak_order (λ x y, cmp_lex (c1 x y) (c2 x y)).
Proof.
  intros H1 H2. split.
  - intros x y. rewrite (proj1 H1 x y), (proj1 H2 x y).
    by destruct (c1 x y).
  - intros x y z. rewrite !cmp_lex_not_Gt.
    destruct (weak_order_table c1 x y z H1) as (Hee & Hl & Hr).
    intros [Hxy|[Hxy Hxy2]] [Hyz|[Hyz Hyz2]].
    + left. apply Hl; [done|]. by rewrite Hyz.
    + left. apply Hl; [done|]. by rewrite Hyz.
    + left. apply Hr; [|done]. by rewrite Hxy.
    + right. split; [by apply Hee|]. by apply (proj2 H2 x y z).
Qed.

Lemma weak_order_on {A B} (f : B → A) (c : A → A → comparison) :
  weak_order c → weak_order (λ x y, c (f x) (f y)).
Proof. intros [Hopp Htr]. split; intros; eauto. Qed.

Lemma weak_order_nat : weak_order Nat.compare.
Proof.
  split.
  - intros x y. apply Nat.compare_antisym.
  - intros x y z. rewrite !Nat.compare_le_iff. lia.
Qed.

Lemma weak_order_Z : weak_order Z.compare.
Proof.
  split.
  - intros x y. apply Z.compare_antisym.
  - intros x y z. rewrite !Z.compare_le_iff. lia.
Qed.

Lemma String_compare_le (s1 s2 : string) :
  String.compare s1 s2 ≠ Gt ↔ String.le s1 s2.
Proof.
  unfold String.le, String.leb. destruct (String.compare s1 s2); naive_solver.
Qed.

Lemma weak_order_string : weak_order String.compare.
Proof.
  split.
  - intros x y. apply String.compare_antisym.
  - intros x y z. rewrite !String_compare_le. apply transitivity.
Qed.

Lemma weak_order_severity : weak_order severity_compare.
Proof. split; [by intros [] []|by intros [] [] []]. Qed.

Lemma weak_order_range : weak_order range_compare.
Proof.
  unfold range_compare.
  apply (weak_order_lex (λ a b, separators a ?= separators b)).
  { apply (weak_order_on separators), weak_order_nat. }
  apply (weak_order_lex (λ a b, String.compare (Filename a) (Filename b))).
  { apply (weak_order_on Filename), weak_order_string. }
  apply (weak_order_lex (λ a b, (Byte (Start a) ?= Byte (Start b))%Z)).
  { apply (weak_order_on (λ a, Byte (Start a))), weak_order_Z. }
  apply (weak_order_on (λ a, Byte (End a))), weak_order_Z.
Qed.

Lemma weak_order_subject : weak_order subject_compare.
Proof.
  destruct weak_order_range as [Hopp Htr]. split.
  - intros [a|] [b|]; simpl; auto.
  - intros [a|] [b|] [c|]; simpl; eauto; done.
Qed.

Lemma weak_order_precedence : weak_order precedence.
Proof.
  unfold precedence.
  apply (weak_order_lex
           (λ x y, severity_compare (Diagnostic_Severity x)
                                    (Diagnostic_Severity y))).
  { apply (weak_order_on Diagnostic_Severity), weak_order_severity. }
  apply (weak_order_on (λ x, Subject (Diagnostic_Source x))),
    weak_order_subject.
Qed.

Lemma String_compare_Eq (s1 s2 : string) : String.compare s1 s2 = Eq ↔ s1 = s2.
Proof. apply String_as_OT.cmp_eq. Qed.

Lemma range_compare_Lt (a b : SourceRange) :
  range_compare a b = Lt ↔
  separators a < separators b ∨
  (separators a = separators b ∧
   (String.compare (Filename a) (Filename b) = Lt ∨
    (Filename a = Filename b ∧
     ((Byte (Start a) < Byte (Start b))%Z ∨
      (Byte (Start a) = Byte (Start b) ∧
       (Byte (End a) < Byte (End b))%Z))))).
Proof.
  unfold range_compare.
  by rewrite !cmp_lex_Lt, Nat.compare_lt_iff, Nat.compare_eq_iff,
    String_compare_Eq, !Z.compare_lt_iff, Z.compare_eq_iff.
Qed.

Lemma range_compare_Eq (a b : SourceRange) :
  range_compare a b = Eq ↔
  separators a = separators b ∧ Filename a = Filename b ∧
  Byte (Start a) = Byte (Start b) ∧ Byte (End a) = Byte (End b).
Proof.
  unfold range_compare.
  by rewrite !cmp_lex_Eq, Nat.compare_eq_iff, String_compare_Eq,
    !Z.compare_eq_iff.
Qed.

Lemma range_compare_not_Gt (a b : SourceRange) :
  range_compare a b ≠ Gt ↔
  separators a < separators b ∨
  (separators a = separators b ∧
   (String.compare (Filename a) (Filename b) = Lt ∨
    (Filename a = Filename b ∧
     ((Byte (Start a) < Byte (Start b))%Z ∨
      (Byte (Start a) = Byte (Start b) ∧
       (Byte (End a) ≤ Byte (End b))%Z))))).
Proof.
  unfold range_compare.
  by rewrite !cmp_lex_not_Gt, Nat.compare_lt_iff, Nat.compare_eq_iff,
    String_compare_Eq, !Z.compare_lt_iff, Z.compare_eq_iff, Z.compare_le_iff.
Qed.

(** The third case of the switch of [Less], on two subjects, answers
    true exactly when the first range comes strictly first. *)
Lemma Less_ranges (iSubj jSubj : SourceRange) :
  (if decide (iSubj ≠ jSubj) then
     if decide (Filename iSubj ≠ Filename jSubj) then
       let sep := filepath_Separator in
       let iCount := strings_Count (Filename iSubj) sep in
       let jCount := strings_Count (Filename jSubj) sep in
       if decide (iCount ≠ jCount) then bool_decide (iCount < jCount)
       else String.ltb (Filename iSubj) (Filename jSubj)
     else if decide (Byte (Start iSubj) ≠ Byte (Start jSubj)) then
       bool_decide (Byte (Start iSubj) < Byte (Start jSubj))%Z
     else if decide (Byte (End iSubj) ≠ Byte (End jSubj)) then
       bool_decide (Byte (End iSubj) < Byte (End jSubj))%Z
     else false
   else false) = true
  ↔ range_compare iSubj jSubj = Lt.
Proof.
  rewrite range_compare_Lt. cbv zeta.
  change (strings_Count (Filename iSubj) filepath_Separator)
    with (separators iSubj).
  change (strings_Count (Filename jSubj) filepath_Separator)
    with (separators jSubj).
  assert (∀ s, String.compare s s ≠ Lt) as Hirr.
  { intros s. by rewrite (proj2 (String_compare_Eq s s) eq_refl). }
  destruct (decide (iSubj ≠ jSubj)) as [Hne|Heq].
  - destruct (decide (Filename iSubj ≠ Filename jSubj)) as [Hf|Hf].
    + destruct (decide (separators iSubj ≠ separators jSubj)) as [Hc|Hc].
      * rewrite bool_decide_eq_true. intuition lia.
      * apply dec_stable in Hc. unfold String.ltb.
        destruct (String.compare (Filename iSubj) (Filename jSubj)) eqn:E.
        -- by apply String_compare_Eq in E.
        -- intuition.
        -- intuition (try lia; try congruence).
    + apply dec_stable in Hf. rewrite Hf. unfold separators. rewrite Hf.
      destruct (decide (Byte (Start iSubj) ≠ Byte (Start jSubj))) as [Hs|Hs].
      * rewrite bool_decide_eq_true. specialize (Hirr (Filename jSubj)).
        intuition lia.
      * apply dec_stable in Hs.
        destruct (decide (Byte (End iSubj) ≠ Byte (End jSubj))) as [He|He].
        -- rewrite bool_decide_eq_true. specialize (Hirr (Filename jSubj)).
           intuition lia.
        -- apply dec_stable in He. specialize (Hirr (Filename jSubj)).
           intuition (try lia; try congruence).
  - apply dec_stable in Heq. subst jSubj.
    specialize (Hirr (Filename iSubj)). intuition (try lia; try congruence).
Qed.

(** [Less] answers true exactly when the first element comes strictly
    first in the order of the spec. *)
Lemma Less_diag_precedence (x y : Diagnostic) :
  Less_diag x y = true ↔ precedence x y = Lt.
Proof.
  unfold Less_diag, precedence. cbv zeta.
  destruct (Diagnostic_Severity x), (Diagnostic_Severity y); simpl;
    [|done|done|].
  - destruct (Subject (Diagnostic_Source x)) as [a|],
             (Subject (Diagnostic_Source y)) as [b|]; simpl; try done.
    apply Less_ranges.
  - destruct (Subject (Diagnostic_Source x)) as [a|],
             (Subject (Diagnostic_Source y)) as [b|]; simpl; try done.
    apply Less_ranges.
Qed.

Lemma Less_diag_false (x y : Diagnostic) :
  Less_diag x y = false ↔ precedence x y ≠ Lt.
Proof.
  rewrite <- Less_diag_precedence. by destruct (Less_diag x y).
Qed.

Lemma Less_diag_asym (x y : Diagnostic) :
  Less_diag x y = true → Less_diag y x = false.
Proof.
  rewrite Less_diag_precedence, Less_diag_false.
  rewrite (proj1 weak_order_precedence x y). by intros ->.
Qed.

Lemma Less_diag_negtrans (x y z : Diagnostic) :
  Less_diag x y = false → Less_diag y z = false → Less_diag x z = false.
Proof.
  rewrite !Less_diag_false.
  destruct weak_order_precedence as [Hopp Htr].
  pose proof (Htr z y x) as H. rewrite (Hopp x y), (Hopp y z), (Hopp x z) in H.
  destruct (precedence x y), (precedence y z), (precedence x z);
    simpl in *; intuition congruence.
Qed.

Lemma String_le_cases (s1 s2 : string) :
  String.le s1 s2 ↔ String.compare s1 s2 = Lt ∨ s1 = s2.
Proof.
  rewrite <- String_compare_le, <- String_compare_Eq.
  destruct (String.compare s1 s2); intuition congruence.
Qed.

Lemma String_compare_Lt_ne (s1 s2 : string) :
  String.compare s1 s2 = Lt → s1 ≠ s2.
Proof.
  intros Hlt <-. by rewrite (proj2 (String_compare_Eq s1 s1) eq_refl) in Hlt.
Qed.

Lemma ranges_in_order (a b : SourceRange) :
  separators a ≤ separators b ∧
  (separators a = separators b →
   String.le (Filename a) (Filename b) ∧
   (Filename a = Filename b →
    (Byte (Start a) ≤ Byte (Start b))%Z ∧
    (Byte (Start a) = Byte (Start b) →
     (Byte (End a) ≤ Byte (End b))%Z)))
  ↔ range_compare a b ≠ Gt.
Proof.
  rewrite range_compare_not_Gt, String_le_cases.
  pose proof (String_compare_Lt_ne (Filename a) (Filename b)) as Hirr.
  split.
  - intros [Hsep Hrest].
    destruct (decide (separators a = separators b)) as [E|]; [|left; lia].
    right. split; [done|].
    destruct (Hrest E) as [[Hlt|Hf] Hbytes]; [by left|].
    right. split; [done|]. destruct (Hbytes Hf) as [Hs He].
    destruct (decide (Byte (Start a) = Byte (Start b))); [auto|left; lia].
  - intros [Hlt|(E & [Hlt|(Hf & [Hs|(Hs & He)])])];
      intuition (try lia; try congruence).
Qed.

(** Being in order is not coming strictly after, in the order of the spec. *)
Lemma in_order_precedence (x y : Diagnostic) :
  in_order x y ↔ precedence x y ≠ Gt.
Proof.
  unfold in_order, precedence.
  destruct (Diagnostic_Severity x), (Diagnostic_Severity y); simpl;
    [|intuition congruence..|].
  - destruct (Subject (Diagnostic_Source x)) as [a|],
             (Subject (Diagnostic_Source y)) as [b|]; simpl;
      [|intuition congruence..].
    rewrite <- ranges_in_order. intuition congruence.
  - destruct (Subject (Diagnostic_Source x)) as [a|],
             (Subject (Diagnostic_Source y)) as [b|]; simpl;
      [|intuition congruence..].
    rewrite <- ranges_in_order. intuition congruence.
Qed.

(** Having the same rank is being equal in the order of the spec. *)
Lemma same_rank_precedence (x y : Diagnostic) :
  same_rank x y ↔ precedence x y = Eq.
Proof.
  unfold same_rank, precedence.
  destruct (Diagnostic_Severity x), (Diagnostic_Severity y); simpl;
    [|intuition congruence..|].
  - destruct (Subject (Diagnostic_Source x)) as [a|],
             (Subject (Diagnostic_Source y)) as [b|]; simpl;
      [|intuition congruence..].
    rewrite range_compare_Eq. unfold separators.
    intuition (try congruence).
  - destruct (Subject (Diagnostic_Source x)) as [a|],
             (Subject (Diagnostic_Source y)) as [b|]; simpl;
      [|intuition congruence..].
    rewrite range_compare_Eq. unfold separators.
    intuition (try congruence).
Qed.

Lemma may_precede_in_order (x y : Diagnostic) :
  may_precede Less_diag x y ↔ in_order x y.
Proof.
  unfold may_precede. rewrite Less_diag_false, in_order_precedence.
  rewrite (proj1 weak_order_precedence x y).
  by destruct (precedence x y).
Qed.

Lemma tied_same_rank (x y : Diagnostic) :
  tied Less_diag x y ↔ same_rank x y.
Proof.
  unfold tied. rewrite !Less_diag_false, same_rank_precedence.
  rewrite (proj1 weak_order_precedence x y).
  destruct (precedence x y); simpl; intuition congruence.
Qed.

(** ** The sort on the slice *)

(** [Swap] exchanges two elements: what it returns is a permutation. *)
Lemma sortDiagnostics_Swap_Permutation (sd sd' : list Diagnostic) (i j : nat) :
  sortDiagnostics_Swap sd i j = Ok sd' → sd' ≡ₚ sd.
Proof.
  unfold sortDiagnostics_Swap, index.
  destruct (sd !! i) as [iD|] eqn:Hi; simpl; [|done].
  destruct (sd !! j) as [jD|] eqn:Hj; simpl; [|done].
  intros [= <-]. by apply Permutation_insert_swap.
Qed.

(** The sort of the slice is the stable sort of its elements: the
    library's algorithm returns what insertion sort of the whole list
    returns. *)
Lemma sort_Stable_insertion_sorted (sd : sortDiagnostics) :
  sort_Stable sd = Ok (insertion_sorted Less_diag sd).
Proof.
  apply (sort_Stable_stable_sort Less_diag Less_diag_asym Less_diag_negtrans);
    reflexivity.
Qed.

Lemma Sort_insertion_sorted (diags : Diagnostics) :
  Sort diags
  = Ok (match diags with
        | Nil => Nil
        | slice_of l => slice_of (insertion_sorted Less_diag l)
        end).
Proof.
  unfold Sort. rewrite sort_Stable_insertion_sorted. by destruct diags.
Qed.

(** The result of [Sort] is the only sorted and stable rearrangement of
    the slice: any list that is in order and keeps the tied elements in
    their order is the one [Sort] leaves. *)
Lemma Sort_unique (diags : Diagnostics) (l : list Diagnostic) :
  StronglySorted (may_precede Less_diag) l →
  (∀ z, filter (tied Less_diag z) l
        = filter (tied Less_diag z) (elems diags)) →
  ∃ sorted, Sort diags = Ok sorted ∧ elems sorted = l.
Proof.
  intros Hsorted Hstable. rewrite Sort_insertion_sorted.
  eexists. split; [done|].
  assert (elems (match diags with
                 | Nil => Nil
                 | slice_of l => slice_of (insertion_sorted Less_diag l)
                 end) = insertion_sorted Less_diag (elems diags)) as ->.
  { by destruct diags. }
  apply (stable_sort_unique Less_diag Less_diag_asym).
  - apply insertion_sorted_sorted;
      [exact Less_diag_asym|exact Less_diag_negtrans].
  - done.
  - intros z. rewrite Hstable.
    apply insertion_sorted_tied, Less_diag_negtrans.
Qed.

(** C10. [Sort] returns, and the slice then holds a permutation of the
    elements it held: every diagnostic occurs as often as before, so the
    length, and the number of elements with any given property, are
    unchanged, and a nil slice stays nil. *)
Theorem Sort_Permutation (diags : Diagnostics) :
  ∃ sorted,
    Sort diags = Ok sorted ∧
    elems sorted ≡ₚ elems diags ∧
    len sorted = len diags ∧
    (∀ (P : Diagnostic → Prop) (P_dec : ∀ d, Decision (P d)),
       length (filter P (elems sorted)) = length (filter P (elems diags))) ∧
    (sorted = Nil ↔ diags = Nil).
Proof.
  rewrite Sort_insertion_sorted. eexists. split; [done|].
  assert (elems (match diags with
                 | Nil => Nil
                 | slice_of l => slice_of (insertion_sorted Less_diag l)
                 end) ≡ₚ elems diags) as Hperm.
  { destruct diags as [|l]; simpl; [done|].
    apply insertion_sorted_Permutation. }
  split_and!.
  - done.
  - unfold len. by rewrite Hperm.
  - intros P HP. by rewrite Hperm.
  - by destruct diags.
Qed.

(** The elements of the example of the spec, whatever the fields the
    example leaves open, compare as the example expects, on every
    system's path separator. *)
Lemma example_separators :
  strings_Count "/a.tf" filepath_Separator
  ≤ strings_Count "/a/b.tf" filepath_Separator.
Proof. simpl. repeat case_decide; lia. Qed.

Lemma example_Less (e1 w e2 : Diagnostic) (r1 r2 : SourceRange) :
  Diagnostic_Severity e1 = Error →
  Subject (Diagnostic_Source e1) = Some r1 → Filename r1 = "/a/b.tf" →
  Diagnostic_Severity w = Warning →
  Diagnostic_Severity e2 = Error →
  Subject (Diagnostic_Source e2) = Some r2 → Filename r2 = "/a.tf" →
  Less_diag w e1 = true ∧ Less_diag e2 w = false ∧ Less_diag e2 e1 = true.
Proof.
  intros Hs1 Hr1 Hf1 Hsw Hs2 Hr2 Hf2.
  rewrite Less_diag_false, !Less_diag_precedence. unfold precedence.
  rewrite Hs1, Hsw, Hs2, Hr1, Hr2. simpl. split_and!; [done..|].
  apply range_compare_Lt. unfold separators. rewrite Hf1, Hf2.
  pose proof example_separators as Hsep.
  destruct (decide (strings_Count "/a.tf" filepath_Separator
                    = strings_Count "/a/b.tf" filepath_Separator));
    [right|left; lia].
  split; [done|]. by left.
Qed.

(** C6. [Sort] returns with the slice in the order of the spec: of two
    elements, the earlier is never an Error before a Warning; with equal
    severities it is never one with a subject before one without; and with
    equal severities and two subjects its filename has no more path
    separators, on equal counts is not greater byte by byte, on equal
    filenames its start byte is not greater, and on equal start bytes its
    end byte is not greater.  The sort is stable: the elements that no
    criterion tells apart from a given one come in the order they had.
    The example of the spec sorts as the spec says. *)
Theorem Sort_orders_stably :
  (∀ diags : Diagnostics,
   ∃ sorted,
     Sort diags = Ok sorted ∧
     (∀ i j x y,
        i < j → elems sorted !! i = Some x → elems sorted !! j = Some y →
        in_order x y) ∧
     (∀ z, filter (same_rank z) (elems sorted)
           = filter (same_rank z) (elems diags))) ∧
  (∀ (e1 w e2 : Diagnostic) (r1 r2 : SourceRange),
     Diagnostic_Severity e1 = Error →
     Subject (Diagnostic_Source e1) = Some r1 →
     Filename r1 = "/a/b.tf" → Byte (Start r1) = 10%Z →
     Diagnostic_Severity w = Warning →
     Subject (Diagnostic_Source w) = None →
     Diagnostic_Severity e2 = Error →
     Subject (Diagnostic_Source e2) = Some r2 →
     Filename r2 = "/a.tf" → Byte (Start r2) = 5%Z →
     Sort (slice_of [e1; w; e2]) = Ok (slice_of [w; e2; e1])).
Proof.
  split.
  - intros diags. rewrite Sort_insertion_sorted. eexists. split; [done|].
    assert (elems (match diags with
                   | Nil => Nil
                   | slice_of l => slice_of (insertion_sorted Less_diag l)
                   end) = insertion_sorted Less_diag (elems diags)) as ->.
    { by destruct diags. }
    split.
    + intros i j x y Hij Hi Hj. apply may_precede_in_order.
      apply (StronglySorted_lookup (may_precede Less_diag)
               (insertion_sorted Less_diag (elems diags)) i j x y);
        [|done..].
      apply insertion_sorted_sorted;
        [exact Less_diag_asym|exact Less_diag_negtrans].
    + intros z.
      rewrite <- !(list_filter_iff (tied Less_diag z) (same_rank z))
        by (intros; apply tied_same_rank).
      apply insertion_sorted_tied. apply Less_diag_negtrans.
  - intros e1 w e2 r1 r2 Hs1 Hr1 Hf1 _ Hsw _ Hs2 Hr2 Hf2 _.
    destruct (example_Less e1 w e2 r1 r2) as (H1 & H2 & H3); [done..|].
    rewrite Sort_insertion_sorted. unfold insertion_sorted.
    cbn [fold_left move_left]. rewrite H1. cbn [move_left].
    rewrite H3. cbn [move_left]. by rewrite H2.
Qed.

(** ** Further properties of the code *)

(** *** The generated [String] method *)

Lemma string_app_cons (c : ascii) (s1 s2 : string) :
  String c s1 +:+ s2 = String c (s1 +:+ s2).
Proof. reflexivity. Qed.

Lemma string_app_nil (s : string) : "" +:+ s = s.
Proof. reflexivity. Qed.

Lemma string_app_inj_r (c : ascii) (s1 s2 : string) :
  s1 +:+ String c "" = s2 +:+ String c "" → s1 = s2.
Proof.
  revert s2. induction s1 as [|c1 s1 IH]; intros [|c2 s2];
    rewrite ?string_app_cons, ?string_app_nil; intros H.
  - done.
  - injection H as _ H. destruct s2; discriminate H.
  - injection H as _ H. destruct s1; discriminate H.
  - injection H as -> H. f_equal. by apply IH.
Qed.

(** X1. The guard of severity_string.go holds: both constant indices are
    0.  On the two constants [String] returns the constant's name and never
    the numeric fallback.  On runes in general [String] is injective: two
    severities that print alike are the same rune. *)
Theorem Severity_String_rune_inj :
  Forall (λ index, index = 0%Z) Severity_guard ∧
  (∀ i : Severity, Severity_String_rune (Severity_rune i) = Severity_String i) ∧
  (∀ i j : Z, Severity_String_rune i = Severity_String_rune j → i = j).
Proof.
  split_and!.
  - by repeat constructor.
  - by intros [].
  - intros i j. unfold Severity_String_rune.
    repeat case_decide; subst; try done;
      rewrite ?string_app_cons, ?string_app_nil; intros Heq;
      try discriminate Heq.
    simplify_eq. apply string_app_inj_r in Heq. by apply (inj pretty).
Qed.

(** *** The sort interface of the slice *)

(** [Less] on two positions in range is the switch on the two elements. *)
Lemma sortDiagnostics_Less_lookup (sd : list Diagnostic) (i j : nat) (b : bool) :
  sortDiagnostics_Less sd i j = Ok b ↔
  ∃ x y, sd !! i = Some x ∧ sd !! j = Some y ∧ Less_diag x y = b.
Proof.
  unfold sortDiagnostics_Less, index.
  destruct (sd !! i) as [x|]; simpl.
  - destruct (sd !! j) as [y|]; simpl.
    + split; [intros [= <-]; eauto|]. by intros (? & ? & [= <-] & [= <-] & <-).
    + split; [done|]. by intros (? & ? & _ & [=] & _).
  - split; [done|]. by intros (? & ? & [=] & _).
Qed.

Lemma Less_diag_irrefl (x : Diagnostic) : Less_diag x x = false.
Proof.
  destruct (Less_diag x x) eqn:H; [|done]. by rewrite (Less_diag_asym x x H) in H.
Qed.

Lemma Less_diag_trans (x y z : Diagnostic) :
  Less_diag x y = true → Less_diag y z = true → Less_diag x z = true.
Proof.
  intros Hxy Hyz. destruct (Less_diag x z) eqn:Hxz; [done|].
  apply Less_diag_asym in Hyz.
  by rewrite (Less_diag_negtrans x z y Hxz Hyz) in Hxy.
Qed.

(** X2. [Less] returns exactly when both indices are below [Len]
    (otherwise the read panics), and on the positions of a slice it is a
    strict weak order, which [sort.Stable] relies on: no element is less
    than itself, [Less] never holds both ways, it is transitive, and so is
    its negation. *)
Theorem sortDiagnostics_Less_strict_weak_order (sd : sortDiagnostics) :
  (∀ i j, (∃ b, sortDiagnostics_Less sd i j = Ok b) ↔
          i < sortDiagnostics_Len sd ∧ j < sortDiagnostics_Len sd) ∧
  (∀ i j, ¬ (i < sortDiagnostics_Len sd ∧ j < sortDiagnostics_Len sd) →
          ∃ msg, sortDiagnostics_Less sd i j = Panic msg) ∧
  (∀ i, i < sortDiagnostics_Len sd → sortDiagnostics_Less sd i i = Ok false) ∧
  (∀ i j, sortDiagnostics_Less sd i j = Ok true →
          sortDiagnostics_Less sd j i = Ok false) ∧
  (∀ i j k, sortDiagnostics_Less sd i j = Ok true →
            sortDiagnostics_Less sd j k = Ok true →
            sortDiagnostics_Less sd i k = Ok true) ∧
  (∀ i j k, sortDiagnostics_Less sd i j = Ok false →
            sortDiagnostics_Less sd j k = Ok false →
            sortDiagnostics_Less sd i k = Ok false).
Proof.
  unfold sortDiagnostics in sd. unfold sortDiagnostics_Len. split_and!.
  - intros i j. rewrite <- !lookup_lt_is_Some. split.
    + intros [b (x & y & Hx & Hy & _)%sortDiagnostics_Less_lookup]. eauto.
    + intros [[x Hx] [y Hy]]. exists (Less_diag x y).
      apply sortDiagnostics_Less_lookup. eauto.
  - intros i j Hij. unfold sortDiagnostics_Less, index.
    destruct (sd !! i) as [x|] eqn:Hx; simpl; [|eauto].
    destruct (sd !! j) as [y|] eqn:Hy; simpl; [|eauto].
    apply lookup_lt_Some in Hx, Hy. lia.
  - intros i [x Hx]%lookup_lt_is_Some. apply sortDiagnostics_Less_lookup.
    exists x, x. split_and!; [done..|]. apply Less_diag_irrefl.
  - intros i j (x & y & Hx & Hy & H)%sortDiagnostics_Less_lookup.
    apply sortDiagnostics_Less_lookup.
    exists y, x. split_and!; [done..|]. by apply Less_diag_asym.
  - intros i j k (x & y & Hx & Hy & Hxy)%sortDiagnostics_Less_lookup
                 (y' & z & Hy' & Hz & Hyz)%sortDiagnostics_Less_lookup.
    simplify_eq. apply sortDiagnostics_Less_lookup.
    exists x, z. split_and!; [done..|]. by apply Less_diag_trans with y.
  - intros i j k (x & y & Hx & Hy & Hxy)%sortDiagnostics_Less_lookup
                 (y' & z & Hy' & Hz & Hyz)%sortDiagnostics_Less_lookup.
    simplify_eq. apply sortDiagnostics_Less_lookup.
    exists x, z. split_and!; [done..|]. by apply Less_diag_negtrans with y.
Qed.

Lemma precedence_sort_key (x y x' y' : Diagnostic) :
  sort_key x = sort_key x' → sort_key y = sort_key y' →
  precedence x y = precedence x' y'.
Proof.
  unfold sort_key, precedence. intros [= Hs Hsub] [= Hs' Hsub'].
  rewrite Hs, Hs'. f_equal.
  destruct (Subject (Diagnostic_Source x)) as [a|],
           (Subject (Diagnostic_Source x')) as [a'|],
           (Subject (Diagnostic_Source y)) as [b|],
           (Subject (Diagnostic_Source y')) as [b'|]; simplify_eq/=; try done.
  unfold range_compare, separators. congruence.
Qed.

Lemma same_rank_sort_key (x y : Diagnostic) :
  same_rank x y ↔ sort_key x = sort_key y.
Proof.
  unfold same_rank, sort_key.
  destruct (Subject (Diagnostic_Source x)) as [a|],
           (Subject (Diagnostic_Source y)) as [b|]; simpl.
  - split.
    + intros (Hs & Hf & Hb & He). by rewrite Hs, Hf, Hb, He.
    + by intros [= Hs Hf Hb He].
  - split; [by intros [_ []]|by intros [=]].
  - split; [by intros [_ []]|by intros [=]].
  - split; [by intros [-> _]|by intros [= ->]].
Qed.

(** X3. [Less] is decided by the severity and the subject's filename,
    start byte and end byte alone: diagnostics that agree on these compare
    the same way, whatever their descriptions, contexts, lines and columns;
    and [Less] answers false both ways, leaving two diagnostics in the
    order they had, exactly when they agree on all of these. *)
Theorem Less_decided_by_sort_key (x y : Diagnostic) :
  (∀ x' y', sort_key x = sort_key x' → sort_key y = sort_key y' →
     Less_diag x y = Less_diag x' y') ∧
  (Less_diag x y = false ∧ Less_diag y x = false ↔ sort_key x = sort_key y) ∧
  (Less_diag x y = true ∨ Less_diag y x = true ∨ sort_key x = sort_key y).
Proof.
  assert (Less_diag x y = false ∧ Less_diag y x = false
          ↔ sort_key x = sort_key y) as Htied.
  { rewrite <- same_rank_sort_key. apply tied_same_rank. }
  split_and!.
  - intros x' y' Hx Hy. pose proof (precedence_sort_key x y x' y' Hx Hy) as Hp.
    destruct (Less_diag x y) eqn:E, (Less_diag x' y') eqn:E'; try done.
    + apply Less_diag_precedence in E. apply Less_diag_false in E'. congruence.
    + apply Less_diag_precedence in E'. apply Less_diag_false in E. congruence.
  - done.
  - destruct (Less_diag x y), (Less_diag y x); intuition.
Qed.

(** X4. [Swap] returns exactly when both indices are below [Len].  It
    then exchanges the two elements and leaves every other position, the
    length and the multiset of elements as they were; it does not depend on
    the order of its two indices, and a second call undoes the first. *)
Theorem sortDiagnostics_Swap_exchanges (sd : sortDiagnostics) (i j : nat) :
  ((∃ sd', sortDiagnostics_Swap sd i j = Ok sd') ↔
   i < sortDiagnostics_Len sd ∧ j < sortDiagnostics_Len sd) ∧
  (¬ (i < sortDiagnostics_Len sd ∧ j < sortDiagnostics_Len sd) →
   ∃ msg, sortDiagnostics_Swap sd i j = Panic msg) ∧
  (∀ sd', sortDiagnostics_Swap sd i j = Ok sd' →
     sortDiagnostics_Len sd' = sortDiagnostics_Len sd ∧
     sd' ≡ₚ sd ∧
     sd' !! i = sd !! j ∧ sd' !! j = sd !! i ∧
     (∀ k, k ≠ i → k ≠ j → sd' !! k = sd !! k) ∧
     sortDiagnostics_Swap sd j i = Ok sd' ∧
     sortDiagnostics_Swap sd' i j = Ok sd).
Proof.
  unfold sortDiagnostics_Len, sortDiagnostics_Swap, index, sortDiagnostics in *.
  split_and!.
  - rewrite <- !lookup_lt_is_Some.
    destruct (sd !! i) as [x|], (sd !! j) as [y|]; simpl;
      split; try (intros [? ?]); try done; eauto; by destruct H.
  - intros Hij.
    destruct (sd !! i) as [x|] eqn:Hx; simpl; [|eauto].
    destruct (sd !! j) as [y|] eqn:Hy; simpl; [|eauto].
    apply lookup_lt_Some in Hx, Hy. lia.
  - intros sd'.
    destruct (sd !! i) as [x|] eqn:Hx; simpl; [|done].
    destruct (sd !! j) as [y|] eqn:Hy; simpl; [|done].
    intros [= <-].
    pose proof (lookup_lt_Some _ _ _ Hx) as Hi.
    pose proof (lookup_lt_Some _ _ _ Hy) as Hj.
    assert (<[j:=x]> (<[i:=y]> sd) !! i = Some y) as Hi'.
    { destruct (decide (i = j)) as [->|Hne].
      - rewrite list_lookup_insert_eq by (by rewrite length_insert). congruence.
      - rewrite list_lookup_insert_ne by done.
        by rewrite list_lookup_insert_eq. }
    assert (<[j:=x]> (<[i:=y]> sd) !! j = Some x) as Hj'.
    { by rewrite list_lookup_insert_eq by (by rewrite length_insert). }
    split_and!.
    + by rewrite !length_insert.
    + by apply Permutation_insert_swap.
    + done.
    + done.
    + intros k Hki Hkj. by rewrite !list_lookup_insert_ne.
    + f_equal. apply list_eq. intros k.
      destruct (decide (k = i)) as [->|Hki];
        [|destruct (decide (k = j)) as [->|Hkj]].
      * rewrite Hi'. destruct (decide (i = j)) as [->|Hne].
        -- rewrite list_lookup_insert_eq by (by rewrite length_insert).
           congruence.
        -- by rewrite list_lookup_insert_eq by (by rewrite length_insert).
      * rewrite Hj'. rewrite list_lookup_insert_ne by done.
        by rewrite list_lookup_insert_eq.
      * by rewrite !list_lookup_insert_ne.
    + rewrite Hi', Hj'. simpl. f_equal. apply list_eq. intros k.
      destruct (decide (k = j)) as [->|Hkj];
        [|destruct (decide (k = i)) as [->|Hki]].
      * by rewrite list_lookup_insert_eq by (by rewrite !length_insert).
      * rewrite list_lookup_insert_ne by done.
        by rewrite list_lookup_insert_eq by (by rewrite !length_insert).
      * by rewrite !list_lookup_insert_ne.
Qed.

(** *** More on the order [Sort] leaves *)

Lemma StronglySorted_from_lookup {A} (R : relation A) (l : list A) :
  (∀ i j x y, i < j → l !! i = Some x → l !! j = Some y → R x y) →
  StronglySorted R l.
Proof.
  induction l as [|z l IH]; intros Hl; constructor.
  - apply IH. intros i j x y Hij Hi Hj. apply (Hl (S i) (S j)); [lia|done..].
  - apply Forall_forall. intros y [k Hk]%list_elem_of_lookup.
    apply (Hl 0 (S k)); [lia|done..].
Qed.

(** The slice is in order when each element may stand before the later
    ones. *)
Lemma in_order_StronglySorted (l : list Diagnostic) :
  (∀ i j x y, i < j → l !! i = Some x → l !! j = Some y → in_order x y) ↔
  StronglySorted (may_precede Less_diag) l.
Proof.
  split.
  - intros Hl. apply StronglySorted_from_lookup.
    intros i j x y Hij Hi Hj. apply may_precede_in_order. eauto.
  - intros Hl i j x y Hij Hi Hj. apply may_precede_in_order.
    by apply (StronglySorted_lookup (may_precede Less_diag) l i j x y).
Qed.

(** The stable sort of a list that is in order is the list. *)
Lemma insertion_sorted_in_order (l : list Diagnostic) :
  StronglySorted (may_precede Less_diag) l →
  insertion_sorted Less_diag l = l.
Proof.
  intros Hl. apply (stable_sort_unique Less_diag Less_diag_asym); [|done|].
  - apply insertion_sorted_sorted;
      [exact Less_diag_asym|exact Less_diag_negtrans].
  - intros z. apply insertion_sorted_tied, Less_diag_negtrans.
Qed.

(** X5. [Sort] leaves the slice as it was exactly when the slice was
    already in order: no Error before a Warning and, within a severity,
    subjects in the order of the criteria.  So a slice of a single
    diagnostic, or of diagnostics that all have the same rank, is never
    rearranged. *)
Theorem Sort_unchanged_iff_in_order (diags : Diagnostics) :
  Sort diags = Ok diags ↔
  ∀ i j x y,
    i < j → elems diags !! i = Some x → elems diags !! j = Some y →
    in_order x y.
Proof.
  rewrite in_order_StronglySorted, Sort_insertion_sorted. split.
  - intros [= Hd]. destruct diags as [|l]; simpl; [constructor|].
    injection Hd as Hd. rewrite <- Hd.
    apply insertion_sorted_sorted;
      [exact Less_diag_asym|exact Less_diag_negtrans].
  - intros Hl. destruct diags as [|l]; [done|]. simpl in Hl.
    by rewrite insertion_sorted_in_order.
Qed.

(** X6. Sorting twice is sorting once: a second [Sort] finds the slice
    in order and leaves it as the first one did. *)
Theorem Sort_idempotent (diags : Diagnostics) :
  (sorted ← Sort diags; Sort sorted) = Sort diags.
Proof.
  rewrite Sort_insertion_sorted. cbn [mbind result_bind].
  rewrite Sort_insertion_sorted. destruct diags as [|l]; [done|].
  rewrite insertion_sorted_in_order; [done|].
  apply insertion_sorted_sorted;
    [exact Less_diag_asym|exact Less_diag_negtrans].
Qed.

(** X7. The order [Sort] leaves is the only one there is: any
    arrangement of the elements that is in order and keeps the diagnostics
    of each rank in the order they had is the one [Sort] returns. *)
Theorem Sort_only_stable_order (diags : Diagnostics) (l : list Diagnostic) :
  (∀ i j x y, i < j → l !! i = Some x → l !! j = Some y → in_order x y) →
  (∀ z, filter (same_rank z) l = filter (same_rank z) (elems diags)) →
  ∃ sorted, Sort diags = Ok sorted ∧ elems sorted = l.
Proof.
  intros Hl Hstable. apply Sort_unique.
  - by apply in_order_StronglySorted.
  - intros z.
    rewrite !(list_filter_iff (tied Less_diag z) (same_rank z))
      by (intros; apply tied_same_rank).
    apply Hstable.
Qed.

Lemma HasErrors_Permutation (d1 d2 : Diagnostics) :
  elems d1 ≡ₚ elems d2 → HasErrors d1 = HasErrors d2.
Proof.
  intros Hperm. apply eq_true_iff_eq. rewrite !HasErrors_true.
  by setoid_rewrite Hperm.
Qed.

(** X8. [Sort] changes nothing that the conversions look at: the sorted
    slice has errors exactly when the slice had, each of [Err],
    [ErrWithWarnings] and [NonFatalErr] returns nil after the sort exactly
    when it did before, and [WrappedErrors] gives the same errors, as often
    as before. *)
Theorem Sort_keeps_error_status (diags : Diagnostics) :
  ∃ sorted,
    Sort diags = Ok sorted ∧
    HasErrors sorted = HasErrors diags ∧
    (Err sorted = None ↔ Err diags = None) ∧
    (ErrWithWarnings sorted = None ↔ ErrWithWarnings diags = None) ∧
    (NonFatalErr sorted = None ↔ NonFatalErr diags = None) ∧
    elems (WrappedErrors sorted) ≡ₚ elems (WrappedErrors diags).
Proof.
  rewrite Sort_insertion_sorted. eexists. split; [done|].
  set (sorted := match diags with
                 | Nil => Nil
                 | slice_of l => slice_of (insertion_sorted Less_diag l)
                 end).
  assert (elems sorted ≡ₚ elems diags) as Hperm.
  { destruct diags as [|l]; simpl; [done|].
    apply insertion_sorted_Permutation. }
  assert (len sorted = len diags) as Hlen by (unfold len; by rewrite Hperm).
  pose proof (HasErrors_Permutation sorted diags Hperm) as He.
  split_and!.
  - done.
  - unfold Err. rewrite He. by destruct (HasErrors diags).
  - unfold ErrWithWarnings, Err. rewrite He, Hlen.
    case_decide; [done|]. by destruct (HasErrors diags).
  - unfold NonFatalErr. rewrite Hlen. by case_decide.
  - rewrite !elems_WrappedErrors. by rewrite Hperm.
Qed.

Lemma filter_filter_all {A} (P Q : A → Prop)
    `{!∀ x, Decision (P x)} `{!∀ x, Decision (Q x)} (l : list A) :
  (∀ x, P x → Q x) → filter P (filter Q l) = filter P l.
Proof.
  intros HPQ. induction l as [|x l IH]; [done|].
  rewrite !filter_cons. destruct (decide (Q x)) as [HQ|HQ].
  - rewrite filter_cons. by rewrite IH.
  - rewrite IH. destruct (decide (P x)) as [HP|HP]; [|done].
    by destruct HQ; apply HPQ.
Qed.

Lemma filter_filter_none {A} (P Q : A → Prop)
    `{!∀ x, Decision (P x)} `{!∀ x, Decision (Q x)} (l : list A) :
  (∀ x, P x → ¬ Q x) → filter P (filter Q l) = [].
Proof.
  intros HPQ. induction l as [|x l IH]; [done|].
  rewrite filter_cons. destruct (decide (Q x)) as [HQ|HQ]; [|done].
  rewrite filter_cons. destruct (decide (P x)) as [HP|HP]; [|done].
  by destruct (HPQ x).
Qed.

Lemma tied_Severity (x y : Diagnostic) :
  tied Less_diag x y → Diagnostic_Severity x = Diagnostic_Severity y.
Proof. rewrite tied_same_rank. by intros [Hs _]. Qed.

(** X9. [Sort] works severity by severity: the sorted slice is the
    warnings of the slice, sorted, followed by its errors, sorted. *)
Theorem Sort_warnings_then_errors (diags : Diagnostics) :
  ∃ sorted warnings errors,
    Sort diags = Ok sorted ∧
    Sort (slice_of (filter (λ d, Diagnostic_Severity d = Warning)
                      (elems diags))) = Ok warnings ∧
    Sort (slice_of (filter (λ d, Diagnostic_Severity d = Error)
                      (elems diags))) = Ok errors ∧
    elems sorted = elems warnings ++ elems errors.
Proof.
  rewrite !Sort_insertion_sorted. eexists _, _, _. split_and!; [done..|].
  assert (elems (match diags with
                 | Nil => Nil
                 | slice_of l => slice_of (insertion_sorted Less_diag l)
                 end) = insertion_sorted Less_diag (elems diags)) as ->.
  { by destruct diags. }
  cbn [elems].
  set (u := elems diags).
  set (W := λ d, Diagnostic_Severity d = Warning).
  set (E := λ d, Diagnostic_Severity d = Error).
  pose proof (insertion_sorted_sorted Less_diag Less_diag_asym
                Less_diag_negtrans) as Hsorted.
  pose proof (insertion_sorted_tied Less_diag Less_diag_negtrans) as Htied.
  apply (stable_sort_unique Less_diag Less_diag_asym); [done| |].
  - apply StronglySorted_app_2; [|done..].
    intros w e Hw He.
    rewrite insertion_sorted_Permutation in Hw, He.
    apply list_elem_of_filter in Hw as [Hw _].
    apply list_elem_of_filter in He as [He _].
    unfold may_precede, Less_diag. cbv zeta. unfold W, E in Hw, He.
    rewrite Hw, He. done.
  - intros z. rewrite filter_app, !Htied.
    destruct (Diagnostic_Severity z) eqn:Hz.
    + rewrite (filter_filter_none _ W), (filter_filter_all _ E); [done|..].
      * intros x Hx%tied_Severity. unfold E. congruence.
      * intros x Hx%tied_Severity. unfold W. congruence.
    + rewrite (filter_filter_all _ W), (filter_filter_none _ E).
      * by rewrite app_nil_r.
      * intros x Hx%tied_Severity. unfold E. congruence.
      * intros x Hx%tied_Severity. unfold W. congruence.
Qed.

(** X10. After [Sort] the slice is sorted as [sort.IsSorted] checks it,
    by the slice's own [Less]: no element is less than one before it. *)
Theorem Sort_sorted_by_Less (diags : Diagnostics) :
  ∃ sorted,
    Sort diags = Ok sorted ∧
    ∀ i j, i < j → j < sortDiagnostics_Len (elems sorted) →
           sortDiagnostics_Less (elems sorted) j i = Ok false.
Proof.
  rewrite Sort_insertion_sorted. eexists. split; [done|].
  assert (elems (match diags with
                 | Nil => Nil
                 | slice_of l => slice_of (insertion_sorted Less_diag l)
                 end) = insertion_sorted Less_diag (elems diags)) as ->.
  { by destruct diags. }
  unfold sortDiagnostics_Len. intros i j Hij Hj.
  destruct (lookup_lt_is_Some_2 _ _ Hj) as [y Hy].
  destruct (lookup_lt_is_Some_2 (insertion_sorted Less_diag (elems diags)) i)
    as [x Hx]; [lia|].
  apply sortDiagnostics_Less_lookup. exists y, x. split_and!; [done..|].
  apply (StronglySorted_lookup (may_precede Less_diag)
           (insertion_sorted Less_diag (elems diags)) i j x y); [|done..].
  apply insertion_sorted_sorted;
    [exact Less_diag_asym|exact Less_diag_negtrans].
Qed.

(** X11. Two slices sort to the same slice exactly when, rank by rank,
    they hold the same diagnostics in the same order: how diagnostics of
    different ranks are interleaved before the sort does not matter. *)
Theorem Sort_same_result_iff (l1 l2 : list Diagnostic) :
  Sort (slice_of l1) = Sort (slice_of l2) ↔
  ∀ z, filter (same_rank z) l1 = filter (same_rank z) l2.
Proof.
  rewrite !Sort_insertion_sorted.
  pose proof (insertion_sorted_tied Less_diag Less_diag_negtrans) as Htied.
  assert (∀ z l, filter (same_rank z) (insertion_sorted Less_diag l)
                 = filter (same_rank z) l) as Hrank.
  { intros z l.
    rewrite <- !(list_filter_iff (tied Less_diag z) (same_rank z))
      by (intros; apply tied_same_rank).
    apply Htied. }
  split.
  - intros [= Heq] z. by rewrite <- (Hrank z l1), Heq, Hrank.
  - intros Hsame. do 2 f_equal.
    apply (stable_sort_unique Less_diag Less_diag_asym).
    + apply insertion_sorted_sorted;
        [exact Less_diag_asym|exact Less_diag_negtrans].
    + apply insertion_sorted_sorted;
        [exact Less_diag_asym|exact Less_diag_negtrans].
    + intros z.
      rewrite !(list_filter_iff (tied Less_diag z) (same_rank z))
        by (intros; apply tied_same_rank).
      by rewrite !Hrank.
Qed.

(** X12. [Less] on runes is [Less] as long as the severities are the two
    constants.  With a severity that is neither, the zero rune of an unset
    field for one, it is no strict weak order: such a diagnostic is never
    less nor greater than an Error, whatever the subjects, so it ties two
    Errors of which one is less than the other, and [sort.Stable] is left
    without the order it needs. *)
Theorem Less_rune_other_severity
    (other : Z) (iSrc jSrc src : Source) :
  other ≠ Severity_rune Error → other ≠ Severity_rune Warning →
  (∀ iSev jSev iDesc jDesc,
     Less_rune (Severity_rune iSev) (Severity_rune jSev) iSrc jSrc
     = Less_diag (diag iSev iDesc iSrc) (diag jSev jDesc jSrc)) ∧
  Less_rune (Severity_rune Error) other iSrc src = false ∧
  Less_rune other (Severity_rune Error) src iSrc = false ∧
  Less_rune other (Severity_rune Error) src jSrc = false ∧
  Less_rune (Severity_rune Error) other jSrc src = false ∧
  (Less_rune (Severity_rune Error) (Severity_rune Error) iSrc jSrc = true →
   ¬ (∀ x y z,
        Less_rune (fst x) (fst y) (snd x) (snd y) = false →
        Less_rune (fst y) (fst z) (snd y) (snd z) = false →
        Less_rune (fst x) (fst z) (snd x) (snd z) = false)).
Proof.
  intros HE HW.
  assert (∀ s s', Less_rune (Severity_rune Error) other s s' = false) as Hlt.
  { intros s s'. unfold Less_rune.
    rewrite decide_True by done. by apply bool_decide_eq_false. }
  assert (∀ s s', Less_rune other (Severity_rune Error) s s' = false) as Hgt.
  { intros s s'. unfold Less_rune.
    rewrite decide_True by done. by apply bool_decide_eq_false. }
  split_and!; [|done..|].
  - intros iSev jSev iDesc jDesc. unfold Less_rune, Less_diag.
    cbn [Diagnostic_Severity Diagnostic_Source].
    destruct iSev, jSev; reflexivity.
  - intros Hless Htrans.
    specialize (Htrans (Severity_rune Error, iSrc) (other, src)
                  (Severity_rune Error, jSrc) (Hlt _ _) (Hgt _ _)).
    cbn [fst snd] in Htrans. congruence.
Qed.

(** *** More on [Append] *)

Lemma Append_loop_app (new1 new2 : list Item) :
  ∀ diags : Diagnostics,
  Append_loop diags (new1 ++ new2)
  = (diags' ← Append_loop diags new1; Append_loop diags' new2).
Proof.
  induction new1 as [|item new1 IH]; intros diags; simpl; [done|].
  destruct (Append_item diags item) as [d|msg]; simpl; [apply IH|done].
Qed.

(** A round of the loop looks at the elements of the slice only. *)
Lemma Append_item_same_outcome (d1 d2 : Diagnostics) (item : Item) :
  elems d1 = elems d2 →
  same_outcome (Append_item d1 item) (Append_item d2 item).
Proof.
  intros Hd.
  destruct item as [|ti|ti|[ti|ti]|[errs|]|ti|T];
    cbn [Append_item same_outcome];
    rewrite ?elems_append, ?elems_Append_nested, ?elems_append_each;
    try congruence.
  destruct (errwrap_GetType ti); cbn [same_outcome];
    rewrite ?elems_append, ?elems_Append_nested; congruence.
Qed.

Lemma Append_loop_same_outcome (new : list Item) :
  ∀ d1 d2 : Diagnostics,
  elems d1 = elems d2 →
  same_outcome (Append_loop d1 new) (Append_loop d2 new).
Proof.
  induction new as [|item new IH]; intros d1 d2 Hd; simpl; [done|].
  pose proof (Append_item_same_outcome d1 d2 item Hd) as Hitem.
  destruct (Append_item d1 item) as [a|msg1],
           (Append_item d2 item) as [b|msg2]; simpl in *; try done.
  by apply IH.
Qed.

(** Slices with the same elements, not none, are the same slice. *)
Lemma elems_inj (d1 d2 : Diagnostics) :
  elems d1 = elems d2 → len d1 ≠ 0 → d1 = d2.
Proof.
  unfold len. destruct d1 as [|l1], d2 as [|l2]; simpl; intros H Hlen;
    subst; try done.
Qed.

(** The final length test makes outcomes that agree equal. *)
Lemma Append_of_same_outcome (r1 r2 : result Diagnostics) :
  same_outcome r1 r2 →
  (diags' ← r1; if decide (len diags' = 0) then Ok Nil else Ok diags')
  = (diags' ← r2; if decide (len diags' = 0) then Ok Nil else Ok diags').
Proof.
  destruct r1 as [d1|msg1], r2 as [d2|msg2]; simpl; try done; [|congruence].
  intros Hd. assert (len d1 = len d2) as Hlen by (unfold len; congruence).
  rewrite <- Hlen. case_decide; [done|]. f_equal. by apply elems_inj.
Qed.

(** Arguments that leave the same elements behind may stand for one
    another anywhere in a call. *)
Lemma Append_replace (diags : Diagnostics) (pre mid1 mid2 post : list Item) :
  (∀ d, same_outcome (Append_loop d mid1) (Append_loop d mid2)) →
  Append diags (pre ++ mid1 ++ post) = Append diags (pre ++ mid2 ++ post).
Proof.
  intros Hmid. apply Append_of_same_outcome. rewrite !Append_loop_app.
  destruct (Append_loop diags pre) as [d|msg]; simpl; [|done].
  rewrite !Append_loop_app. specialize (Hmid d).
  destruct (Append_loop d mid1) as [a|msg1],
           (Append_loop d mid2) as [b|msg2]; simpl in *; try done.
  by apply Append_loop_same_outcome.
Qed.

Lemma Append_loop_each (l : list Diagnostic) :
  ∀ d : Diagnostics,
  ∃ d', Append_loop d (item_Diagnostic <$> l) = Ok d' ∧
        elems d' = elems d ++ l.
Proof.
  induction l as [|x l IH]; intros d.
  - eexists. split; [done|]. by rewrite app_nil_r.
  - destruct (IH (append d [x])) as (d' & Hloop & Hd').
    exists d'. split; [exact Hloop|].
    rewrite Hd', elems_append. by rewrite <- app_assoc.
Qed.

(** X13. One call of [Append] with all the arguments is the same as a
    call with the first ones followed by a call, on its result, with the
    others: the same slice, or the same panic. *)
Theorem Append_in_steps (diags : Diagnostics) (new1 new2 : list Item) :
  Append diags (new1 ++ new2)
  = (diags' ← Append diags new1; Append diags' new2).
Proof.
  unfold Append. rewrite Append_loop_app.
  destruct (Append_loop diags new1) as [d|msg]; simpl; [|done].
  case_decide as Hlen; simpl; [|done].
  apply Append_of_same_outcome, Append_loop_same_outcome.
  by apply len_0_elems in Hlen.
Qed.

(** X14. [Append] looks at the elements of its receiver only: receivers
    with the same elements give the same slice or the same panic, so an
    allocated empty receiver is treated as the nil receiver is. *)
Theorem Append_receiver_elems (d1 d2 : Diagnostics) (new : list Item) :
  elems d1 = elems d2 → Append d1 new = Append d2 new.
Proof.
  intros Hd. unfold Append.
  apply Append_of_same_outcome, Append_loop_same_outcome, Hd.
Qed.

Lemma Append_item_keeps_shape (diags d : Diagnostics) (item : Item) :
  diags ≠ slice_of [] → Append_item diags item = Ok d → d ≠ slice_of [].
Proof.
  assert (∀ (s : Diagnostics) xs, s ≠ slice_of [] → append s xs ≠ slice_of [])
    as Happend.
  { intros s [|x xs] Hs; simpl; [done|]. by destruct (elems s). }
  assert (∀ s ti : Diagnostics, Append_nested s ti ≠ slice_of []) as Hnested.
  { intros s ti. unfold Append_nested. case_decide as Hlen; [done|].
    intros Heq. by rewrite Heq in Hlen. }
  intros Hd.
  destruct item as [|ti|ti|[ti|ti]|[errs|]|ti|T]; cbn [Append_item].
  - by intros [= <-].
  - intros [= <-]. by apply (Happend diags [ti]).
  - intros [= <-]. by apply Happend.
  - intros [= <-]. apply Hnested.
  - intros [= <-]. apply Hnested.
  - intros [= <-]. clear Hnested. revert diags Hd.
    induction errs as [|e errs IH]; intros diags Hd; [done|].
    cbn [fold_left]. apply IH. by apply (Happend diags [nativeError e]).
  - done.
  - destruct (errwrap_GetType ti); intros [= <-];
      [apply Hnested|by apply (Happend diags [nativeError ti])].
  - done.
Qed.

Lemma Append_loop_keeps_shape (new : list Item) :
  ∀ diags d : Diagnostics,
  diags ≠ slice_of [] → Append_loop diags new = Ok d → d ≠ slice_of [].
Proof.
  induction new as [|item new IH]; intros diags d Hd; simpl.
  - by intros [= <-].
  - destruct (Append_item diags item) as [d1|msg] eqn:Hitem; simpl; [|done].
    apply IH. by apply (Append_item_keeps_shape diags d1 item).
Qed.

(** X15. The slice at the end of the loop of [Append] is nil or holds a
    diagnostic, as the comment before the final test says, provided the
    receiver was not an allocated empty slice: the final test then changes
    nothing.  An allocated empty receiver is the one case the test is
    there for. *)
Theorem Append_loop_never_empty
    (diags : Diagnostics) (new : list Item) (r : Diagnostics) :
  diags ≠ slice_of [] →
  Append_loop diags new = Ok r →
  r ≠ slice_of [] ∧ (len r = 0 → r = Nil) ∧ Append diags new = Ok r.
Proof.
  intros Hd Hloop.
  pose proof (Append_loop_keeps_shape new diags r Hd Hloop) as Hr.
  assert (len r = 0 → r = Nil) as Hnil.
  { destruct r as [|[|x l]]; done. }
  split_and!; [done..|].
  unfold Append. rewrite Hloop. simpl. case_decide; [|done].
  f_equal. symmetry. auto.
Qed.

Lemma Item_diagnostics_recognized (item : Item) :
  is_Some (Item_diagnostics item) ↔
  recognized item ∧ item ≠ item_multierror None.
Proof.
  destruct item as [|ti|ti|[ti|ti]|[errs|]|ti|T]; simpl;
    try (split; [by intros _|by eauto]).
  - split; [by intros [? [=]]|by intros [_ []]].
  - destruct (errwrap_GetType ti); (split; [by intros _|by eauto]).
  - split; [by intros [? [=]]|by intros [[] _]].
Qed.

(** X16. [Append] returns exactly when every argument has a shape the
    type switch has a case for and none is a nil [*multierror.Error],
    which the test [item == nil] does not catch: reading [ti.Errors]
    through the nil pointer panics. *)
Theorem Append_returns_iff (diags : Diagnostics) (new : list Item) :
  ((∃ r, Append diags new = Ok r) ↔
   Forall (λ item, recognized item ∧ item ≠ item_multierror None) new) ∧
  (∀ pre post,
     Forall (λ item, recognized item ∧ item ≠ item_multierror None) pre →
     Append diags (pre ++ item_multierror None :: post)
     = Panic "runtime error: invalid memory address or nil pointer dereference").
Proof.
  split.
  - split.
    + intros [r Hr]. apply Append_Ok_inv in Hr as (d & Hd & _).
      apply Append_loop_inv in Hd as (ls & Hls & _).
      apply Forall_forall. intros item [i Hi]%list_elem_of_lookup.
      destruct (Forall2_lookup_l _ _ _ _ _ Hls Hi) as (l & _ & Hl).
      apply Item_diagnostics_recognized. by exists l.
    + intros Hnew.
      assert (∀ d, ∃ d', Append_loop d new = Ok d') as Hloop.
      { induction Hnew as [|item new Hitem _ IH]; intros d; simpl; [eauto|].
        apply Item_diagnostics_recognized in Hitem as [l Hl].
        destruct (Append_item_Ok d item l Hl) as (d1 & -> & _). simpl.
        apply IH. }
      destruct (Hloop diags) as [d Hd].
      apply Append_loop_Append in Hd as (r & Hr & _). eauto.
  - intros pre post Hpre. unfold Append. rewrite Append_loop_app.
    assert (∃ d, Append_loop diags pre = Ok d) as [d ->]; [|done].
    revert diags. induction Hpre as [|item pre Hitem _ IH]; intros d; simpl;
      [eauto|].
    apply Item_diagnostics_recognized in Hitem as [l Hl].
    destruct (Append_item_Ok d item l Hl) as (d1 & -> & _). simpl.
    apply IH.
Qed.

Lemma Append_loop_single (d : Diagnostics) (item : Item) :
  Append_loop d [item] = Append_item d item.
Proof. simpl. by destruct (Append_item d item). Qed.

(** X17. An error view as an argument stands for the slice it holds, and
    a slice as an argument stands for its diagnostics given one by one:
    anywhere among the arguments, either may replace the other without
    changing what [Append] returns. *)
Theorem Append_unwraps_and_flattens
    (diags ti : Diagnostics) (pre post : list Item) :
  Append diags (pre ++ item_ErrorView (diagnosticsAsError ti) :: post)
  = Append diags (pre ++ item_Diagnostics ti :: post) ∧
  Append diags (pre ++ item_ErrorView (NonFatalError ti) :: post)
  = Append diags (pre ++ item_Diagnostics ti :: post) ∧
  Append diags (pre ++ item_Diagnostics ti :: post)
  = Append diags (pre ++ (item_Diagnostic <$> elems ti) ++ post).
Proof.
  split_and!.
  - apply (Append_replace diags pre [_] [_] post). intros d.
    rewrite !Append_loop_single. cbn [Append_item same_outcome].
    by rewrite elems_Append_nested, elems_append.
  - apply (Append_replace diags pre [_] [_] post). intros d.
    rewrite !Append_loop_single. cbn [Append_item same_outcome].
    by rewrite elems_Append_nested, elems_append.
  - apply (Append_replace diags pre [_] _ post). intros d.
    rewrite Append_loop_single. cbn [Append_item].
    destruct (Append_loop_each (elems ti) d) as (d' & -> & Hd').
    cbn [same_outcome]. by rewrite elems_append.
Qed.

Lemma Append_loop_native (errs : list error) :
  ∀ d : Diagnostics,
  ∃ d', Append_loop d (item_Diagnostic ∘ nativeError <$> errs) = Ok d' ∧
        elems d' = elems d ++ (nativeError <$> errs).
Proof.
  intros d. rewrite list_fmap_compose. apply Append_loop_each.
Qed.

Lemma Append_loop_errors (errs : list error) :
  Forall (λ err, errwrap_GetType err = None) errs →
  ∀ d : Diagnostics,
  ∃ d', Append_loop d (item_error <$> errs) = Ok d' ∧
        elems d' = elems d ++ (nativeError <$> errs).
Proof.
  induction 1 as [|e errs He _ IH]; intros d.
  - eexists. split; [done|]. by rewrite app_nil_r.
  - destruct (IH (append d [nativeError e])) as (d' & Hloop & Hd').
    exists d'. split.
    + cbn [fmap list_fmap Append_loop Append_item]. rewrite He. exact Hloop.
    + rewrite Hd', elems_append. by rewrite <- app_assoc.
Qed.

(** X18. An aggregate error as an argument stands for its causes, each
    wrapped as it is, whatever it wraps in turn.  It stands for its causes
    given one by one as errors when none of them hides a collection; a
    cause that hides one is unpicked only when given on its own. *)
Theorem Append_multierror_causes
    (diags : Diagnostics) (Errors : list error) (pre post : list Item) :
  Append diags (pre ++ item_multierror (Some Errors) :: post)
  = Append diags (pre ++ (item_Diagnostic ∘ nativeError <$> Errors) ++ post) ∧
  (Forall (λ err, errwrap_GetType err = None) Errors →
   Append diags (pre ++ item_multierror (Some Errors) :: post)
   = Append diags (pre ++ (item_error <$> Errors) ++ post)).
Proof.
  split.
  - apply (Append_replace diags pre [_] _ post). intros d.
    rewrite Append_loop_single. cbn [Append_item].
    destruct (Append_loop_native Errors d) as (d' & -> & Hd').
    cbn [same_outcome]. by rewrite elems_append_each.
  - intros Herrs. apply (Append_replace diags pre [_] _ post). intros d.
    rewrite Append_loop_single. cbn [Append_item].
    destruct (Append_loop_errors Errors Herrs d) as (d' & -> & Hd').
    cbn [same_outcome]. by rewrite elems_append_each.
Qed.


(** *** Diagnostics carried through an [error] and back *)

Lemma Append_nested_Nil (diags : Diagnostics) :
  Append_nested Nil diags = (if decide (len diags = 0) then Nil else diags).
Proof.
  unfold Append_nested, len. by destruct diags as [|[|x l]].
Qed.

Lemma Append_ErrorView (acc : Diagnostics) (v : ErrorView) :
  Append acc [item_ErrorView v]
  = Append acc [item_Diagnostics (ErrorView_Diagnostics v)].
Proof.
  apply (Append_replace acc [] [_] [_] []). intros d.
  rewrite !Append_loop_single.
  destruct v as [ti|ti]; cbn [Append_item same_outcome ErrorView_Diagnostics];
    by rewrite elems_Append_nested, elems_append.
Qed.

Lemma Append_no_diagnostics (acc diags : Diagnostics) :
  len diags = 0 → Append acc [item_Diagnostics diags] = Append acc [].
Proof.
  intros Hlen%len_0_elems. unfold Append. simpl. by rewrite Hlen.
Qed.

(** X20. Nothing is lost through [ErrWithWarnings] or [NonFatalErr]:
    handing the error either returns to [Append] is the same as handing
    the slice itself, and on a nil receiver it gives the slice back, nil
    if it was empty. *)
Theorem ErrWithWarnings_round_trip (acc diags : Diagnostics) :
  Append acc [error_item (ErrWithWarnings diags)]
  = Append acc [item_Diagnostics diags] ∧
  Append acc [error_item (NonFatalErr diags)]
  = Append acc [item_Diagnostics diags] ∧
  Append Nil [error_item (ErrWithWarnings diags)]
  = Ok (if decide (len diags = 0) then Nil else diags) ∧
  Append Nil [error_item (NonFatalErr diags)]
  = Ok (if decide (len diags = 0) then Nil else diags).
Proof.
  assert (∀ acc, Append acc [error_item (ErrWithWarnings diags)]
                 = Append acc [item_Diagnostics diags]) as Hwarn.
  { intros acc'. unfold ErrWithWarnings, Err.
    case_decide as Hlen; [by rewrite Append_no_diagnostics|].
    destruct (HasErrors diags); apply Append_ErrorView. }
  assert (∀ acc, Append acc [error_item (NonFatalErr diags)]
                 = Append acc [item_Diagnostics diags]) as Hnon.
  { intros acc'. unfold NonFatalErr.
    case_decide as Hlen; [by rewrite Append_no_diagnostics|].
    apply Append_ErrorView. }
  split_and!; [done..| |].
  - by rewrite Hwarn, Append_Diagnostics_nested, Append_nested_Nil.
  - by rewrite Hnon, Append_Diagnostics_nested, Append_nested_Nil.
Qed.

Lemma HasErrors_len (diags : Diagnostics) :
  HasErrors diags = true → len diags ≠ 0.
Proof.
  intros (d & Hd & _)%HasErrors_true Hlen%len_0_elems.
  rewrite Hlen in Hd. by apply elem_of_nil in Hd.
Qed.

(** X21. Through [Err] the diagnostics survive exactly when one of them
    is an error: handing the error [Err] returns to [Append] is then the
    same as handing the slice itself, and on a nil receiver gives the slice
    back.  A slice of warnings only is lost: [Err] returns nil, which
    [Append] skips. *)
Theorem Err_round_trip (acc diags : Diagnostics) :
  (HasErrors diags = true →
     Append acc [error_item (Err diags)]
     = Append acc [item_Diagnostics diags] ∧
     Append Nil [error_item (Err diags)] = Ok diags) ∧
  (HasErrors diags = false →
     Append acc [error_item (Err diags)] = Append acc [] ∧
     Append Nil [error_item (Err diags)] = Ok Nil).
Proof.
  unfold Err. split; intros He; rewrite He; cbn [negb error_item].
  - rewrite !Append_ErrorView. cbn [ErrorView_Diagnostics].
    split; [done|]. rewrite Append_Diagnostics_nested, Append_nested_Nil.
    apply HasErrors_len in He. by case_decide.
  - split; [|done]. unfold Append. by rewrite (Append_loop_skip_nil [] []).
Qed.

(** X22. The slice [Append] returns has an error exactly when the
    receiver had one or some argument contributed one; so [Append] never
    makes [Err] return nil on a slice on which it did not. *)
Theorem Append_HasErrors
    (diags : Diagnostics) (new : list Item) (r : Diagnostics) :
  Append diags new = Ok r →
  (HasErrors r = true ↔
   HasErrors diags = true ∨
   ∃ item l d, item ∈ new ∧ Item_diagnostics item = Some l ∧
               d ∈ l ∧ Diagnostic_Severity d = Error) ∧
  (Err diags ≠ None → Err r ≠ None).
Proof.
  intros Hr. apply Append_Ok_inv in Hr as (d' & Hd' & Hel & _).
  apply Append_loop_inv in Hd' as (ls & Hls & Hel').
  rewrite Hel' in Hel. clear d' Hel'.
  assert (HasErrors r = true ↔
          HasErrors diags = true ∨
          ∃ item l d, item ∈ new ∧ Item_diagnostics item = Some l ∧
                      d ∈ l ∧ Diagnostic_Severity d = Error) as Hiff.
  { rewrite !HasErrors_true, Hel. split.
    - intros (d & [Hd|Hd]%elem_of_app & Hsev); [left; eauto|right].
      apply list_elem_of_In, in_concat in Hd as (l & Hl & Hd).
      apply list_elem_of_In, list_elem_of_lookup in Hl as [i Hi].
      destruct (Forall2_lookup_r _ _ _ _ _ Hls Hi) as (item & Hitem & Hl).
      exists item, l, d. split_and!; [|done| |done].
      + by eapply list_elem_of_lookup_2.
      + by apply list_elem_of_In.
    - intros [(d & Hd & Hsev)|(item & l & d & Hitem & Hl & Hd & Hsev)].
      + exists d. split; [|done]. apply elem_of_app. by left.
      + exists d. split; [|done]. apply elem_of_app. right.
        apply list_elem_of_lookup in Hitem as [i Hi].
        destruct (Forall2_lookup_l _ _ _ _ _ Hls Hi) as (l' & Hl' & Hitem).
        assert (l' = l) as -> by congruence.
        apply list_elem_of_In, in_concat. exists l.
        split; apply list_elem_of_In; [|done].
        by eapply list_elem_of_lookup_2. }
  split; [done|]. unfold Err.
  destruct (HasErrors diags) eqn:He; [|done]. intros _.
  assert (HasErrors r = true) as -> by (apply Hiff; by left). done.
Qed.

(** *** More on the error views *)

Lemma WrappedErrors_loop (l : list Diagnostic) :
  ∀ errs : slice error,
  fold_left
    (λ errs d,
       match d with
       | nativeError err => append errs [err]
       | diag _ _ _ => errs
       end) l errs
  = append errs (omap wrapped_error l).
Proof.
  induction l as [|d l IH]; intros errs; [done|].
  cbn [fold_left]. rewrite IH. destruct d as [sev desc src|err]; [done|].
  cbn [omap list_omap wrapped_error].
  destruct (omap wrapped_error l) as [|e es]; simpl; [done|].
  by rewrite <- app_assoc.
Qed.

Lemma length_omap_le {A B} (f : A → option B) (l : list A) :
  length (omap f l) ≤ length l.
Proof.
  induction l as [|x l IH]; [done|].
  change (omap f (x :: l))
    with (match f x with Some y => y :: omap f l | None => omap f l end).
  destruct (f x); cbn [length]; lia.
Qed.

Lemma omap_nil_Forall {A B} (f : A → option B) (l : list A) :
  omap f l = [] ↔ Forall (λ x, f x = None) l.
Proof.
  induction l as [|x l IH]; [done|].
  change (omap f (x :: l))
    with (match f x with Some y => y :: omap f l | None => omap f l end).
  rewrite Forall_cons. destruct (f x); [|by rewrite IH; intuition].
  split; [done|by intros [[=] _]].
Qed.

Lemma slice_or_nil_Nil {A} (l : list A) : slice_or_nil l = Nil ↔ l = [].
Proof. by destruct l. Qed.

(** X23. [WrappedErrors] returns the nil slice, and never an allocated
    empty one, exactly when no diagnostic of the view wraps an error; it
    never returns more errors than the view has diagnostics. *)
Theorem WrappedErrors_nil_iff (dae : Diagnostics) :
  WrappedErrors dae = slice_or_nil (omap wrapped_error (elems dae)) ∧
  (WrappedErrors dae = Nil ↔
   Forall (λ d, wrapped_error d = None) (elems dae)) ∧
  WrappedErrors dae ≠ slice_of [] ∧
  len (WrappedErrors dae) ≤ len dae.
Proof.
  assert (WrappedErrors dae = slice_or_nil (omap wrapped_error (elems dae)))
    as Hw.
  { unfold WrappedErrors. rewrite WrappedErrors_loop.
    by destruct (omap wrapped_error (elems dae)). }
  split_and!.
  - done.
  - by rewrite Hw, slice_or_nil_Nil, omap_nil_Forall.
  - rewrite Hw. by destruct (omap wrapped_error (elems dae)).
  - unfold len. rewrite elems_WrappedErrors. apply length_omap_le.
Qed.

(** X24. An error [Err], [ErrWithWarnings] or [NonFatalErr] returns holds
    the receiver itself, which is not empty: so its [Error] method never
    takes the case of a slice of length 0, as the comments there say, and
    its message is the text for one diagnostic or a header with the
    diagnostics' lines. *)
Theorem views_hold_diagnostics (diags : Diagnostics) (v : ErrorView) :
  Err diags = Some v ∨ ErrWithWarnings diags = Some v ∨
    NonFatalErr diags = Some v →
  ErrorView_Diagnostics v = diags ∧
  1 ≤ len diags ∧
  (Err diags = Some v → v = diagnosticsAsError diags ∧ HasErrors diags = true) ∧
  (len diags = 1 →
     ∃ d, elems diags = [d] ∧
          ErrorView_Error v = diagnosticsAsError_Error (slice_of [d])) ∧
  (1 < len diags →
     ∃ header, ErrorView_Error v = header +:+ bullets (elems diags)).
Proof.
  intros Hv.
  assert (ErrorView_Diagnostics v = diags ∧ 1 ≤ len diags) as [Heq Hlen].
  { unfold ErrWithWarnings, NonFatalErr, Err in Hv.
    destruct (HasErrors diags) eqn:He; simpl in Hv.
    - apply HasErrors_len in He. split; [|lia].
      destruct Hv as [Hv|[Hv|Hv]]; repeat case_decide; by simplify_eq.
    - destruct Hv as [Hv|[Hv|Hv]]; repeat case_decide; simplify_eq;
        (split; [done|lia]). }
  split_and!; [done..| | |].
  - unfold Err. destruct (HasErrors diags); simpl; [|done].
    by intros [= <-].
  - intros H1. unfold len in H1.
    destruct (elems diags) as [|d [|d' l]] eqn:Hel; try done.
    exists d. split; [done|].
    destruct v as [ds|ds]; simpl in Heq; subst ds; simpl;
      unfold diagnosticsAsError_Error, NonFatalError_Error;
      by rewrite Hel.
  - intros Hmany. destruct v as [ds|ds]; simpl in Heq; subst ds; simpl.
    + rewrite diagnosticsAsError_Error_many by done.
      eexists. by rewrite <- !string_app_assoc.
    + rewrite NonFatalError_Error_many by done.
      eexists. by rewrite <- !string_app_assoc.
Qed.

Lemma bullets_shown (l1 : list Diagnostic) :
  ∀ l2, shown <$> l1 = shown <$> l2 → bullets l1 = bullets l2.
Proof.
  induction l1 as [|d1 l1 IH]; intros [|d2 l2]; try done.
  intros [= Hs Hd Hl]. simpl. unfold bullet. rewrite Hs, Hd.
  by rewrite (IH l2 Hl).
Qed.

(** X25. The messages show summaries and details and nothing else: two
    views whose diagnostics agree on these, one by one, have the same
    fatal message, and the same non-fatal message when, besides, both or
    neither have an error; addresses, sources and, but for the header's
    word, severities never reach the text. *)
Theorem messages_show_summary_and_detail (a b : Diagnostics) :
  shown <$> elems a = shown <$> elems b →
  diagnosticsAsError_Error a = diagnosticsAsError_Error b ∧
  (HasErrors a = HasErrors b →
   NonFatalError_Error a = NonFatalError_Error b).
Proof.
  intros Hshown.
  assert (len a = len b) as Hlen.
  { unfold len. by rewrite <- (length_fmap shown), Hshown, length_fmap. }
  pose proof (bullets_shown _ _ Hshown) as Hbullets.
  destruct (decide (1 < len a)) as [Hmany|Hfew].
  - rewrite !diagnosticsAsError_Error_many, !NonFatalError_Error_many by lia.
    rewrite Hlen, Hbullets. split; [done|]. by intros ->.
  - unfold len in *. unfold diagnosticsAsError_Error, NonFatalError_Error.
    destruct (elems a) as [|d1 [|d1' l1]], (elems b) as [|d2 [|d2' l2]];
      simpl in *; try lia; try done.
    unfold shown in Hshown. injection Hshown as Hs Hd.
    by rewrite Hs, Hd.
Qed.

Lemma NonFatalError_Error_HasErrors (diags : Diagnostics) :
  HasErrors diags = true →
  NonFatalError_Error diags = diagnosticsAsError_Error diags.
Proof.
  intros He. pose proof (HasErrors_len diags He) as Hlen.
  destruct (decide (1 < len diags)) as [Hmany|Hone].
  - rewrite NonFatalError_Error_many, diagnosticsAsError_Error_many by done.
    by rewrite He.
  - unfold len in *. unfold NonFatalError_Error, diagnosticsAsError_Error.
    destruct (elems diags) as [|d [|d' l]]; simpl in *; [done..|lia].
Qed.

(** X26. The three conversions agree.  [ErrWithWarnings] is [Err] on a
    slice with an error and [NonFatalErr] on one without; and whichever
    conversion made it, an error carries the same message: that of
    [ErrWithWarnings] is always that of [NonFatalErr], and that of [Err],
    when [Err] is not nil, is that of the other two. *)
Theorem conversions_agree (diags : Diagnostics) :
  ErrWithWarnings diags
  = (if HasErrors diags then Err diags else NonFatalErr diags) ∧
  ErrorView_Error <$> ErrWithWarnings diags
  = ErrorView_Error <$> NonFatalErr diags ∧
  (Err diags ≠ None →
   ErrorView_Error <$> Err diags = ErrorView_Error <$> NonFatalErr diags).
Proof.
  unfold ErrWithWarnings, NonFatalErr, Err.
  destruct (HasErrors diags) eqn:He; simpl.
  - pose proof (HasErrors_len diags He) as Hlen.
    pose proof (NonFatalError_Error_HasErrors diags He) as Hmsg.
    destruct (decide (len diags = 0)); [done|]. simpl.
    by rewrite Hmsg.
  - by destruct (decide (len diags = 0)).
Qed.

End Tbdiags.

(** ** Concrete checks

    The theorems at concrete collections, with Go strings as the errors
    (an error being its own message), no error hiding a collection, and
    ['/'] as the path separator. *)

(** C1 as the spec words it fails on the code: for three items the
    message has no blank line between the items. *)
Lemma fatal_message_blank_lines_counterexample :
  diagnosticsAsError_Error string id
    (slice_of [sample_diag string Error "s1" "" None;
               sample_diag string Error "s2" "" None;
               sample_diag string Error "s3" "" None])
  ≠ "3 problems:" +:+ nl
    +:+ nl +:+ "- s1" +:+ nl
    +:+ nl +:+ "- s2" +:+ nl
    +:+ nl +:+ "- s3".
Proof. intros H. vm_compute in H. discriminate H. Qed.

Lemma fatal_message_witness :
  diagnosticsAsError_Error string id
    (slice_of [sample_diag string Error "s1" "" None]) = "s1" ∧
  diagnosticsAsError_Error string id
    (slice_of [sample_diag string Error "s1" "why" None]) = "s1: why" ∧
  diagnosticsAsError_Error string id
    (slice_of [sample_diag string Error "s1" "" None;
               sample_diag string Warning "s2" "" None;
               sample_diag string Error "s3" "" None])
  = "3 problems:" +:+ nl
    +:+ nl +:+ "- s1"
    +:+ nl +:+ "- s2"
    +:+ nl +:+ "- s3".
Proof.
  destruct (fatal_message string id
              (sample_diag string Error "s1" "" None)
              (sample_diag string Error "s1" "" None)
              (sample_diag string Warning "s2" "" None)
              (sample_diag string Error "s3" "" None))
    as (Hone & _ & Hthree & _).
  destruct (fatal_message string id
              (sample_diag string Error "s1" "why" None)
              (sample_diag string Error "s1" "" None)
              (sample_diag string Warning "s2" "" None)
              (sample_diag string Error "s3" "" None))
    as (_ & Hdetail & _ & _).
  split_and!.
  - apply Hone. reflexivity.
  - apply Hdetail. discriminate.
  - apply Hthree; reflexivity.
Defined.

Lemma Err_witness :
  Err string (slice_of [sample_diag string Warning "w1" "" None;
                        sample_diag string Warning "w2" "" None]) = None.
Proof.
  destruct (Err_nil_iff_not_HasErrors string
              (slice_of [sample_diag string Warning "w1" "" None;
                         sample_diag string Warning "w2" "" None]))
    as (_ & _ & _ & Hwarnings).
  apply Hwarnings. repeat constructor.
Defined.

Lemma ErrWithWarnings_witness :
  ErrWithWarnings string
    (slice_of [sample_diag string Warning "w1" "" None])
  = Some (NonFatalError string
            (slice_of [sample_diag string Warning "w1" "" None])).
Proof.
  destruct (ErrWithWarnings_cases string
              (slice_of [sample_diag string Warning "w1" "" None]))
    as (_ & _ & Hwarnings).
  apply Hwarnings.
  - discriminate.
  - repeat constructor.
Defined.

Lemma NonFatalErr_witness :
  NonFatalErr string (slice_of [sample_diag string Error "e" "" None])
  = Some (NonFatalError string
            (slice_of [sample_diag string Error "e" "" None])).
Proof.
  destruct (NonFatalErr_cases string
              (slice_of [sample_diag string Error "e" "" None]))
    as (_ & Hsome & _).
  apply Hsome. discriminate.
Defined.

Lemma Append_flattens_witness :
  Append string (λ _, None) (slice_of [])
    [item_nil string; item_ErrorView string (diagnosticsAsError string Nil)]
  = Ok Nil.
Proof.
  destruct (Append_flattens string (λ _, None) (slice_of []) Nil Nil
              [item_nil string;
               item_ErrorView string (diagnosticsAsError string Nil)])
    as (_ & _ & _ & _ & _ & Hnil & _).
  destruct (Append string (λ _, None) (slice_of [])
              [item_nil string;
               item_ErrorView string (diagnosticsAsError string Nil)])
    as [r|msg] eqn:Hr; [|discriminate Hr].
  f_equal. apply (Hnil r eq_refl). by injection Hr as <-.
Defined.

Lemma nonfatal_message_witness :
  NonFatalError_Error string id
    (slice_of [sample_diag string Warning "w1" "" None;
               sample_diag string Warning "w2" "more" None])
  = "2 warnings:" +:+ nl +:+ nl +:+ "- w1" +:+ nl +:+ "- w2: more".
Proof.
  destruct (nonfatal_message string id
              (slice_of [sample_diag string Warning "w1" "" None;
                         sample_diag string Warning "w2" "more" None]))
    as (_ & _ & _ & Hwarnings & _).
  apply Hwarnings; [cbn; lia|reflexivity].
Defined.

Lemma WrappedErrors_witness :
  ∃ r,
    Append string (λ _, None) Nil
      [item_error string "e1";
       item_Diagnostic string (sample_diag string Warning "w" "" None);
       item_multierror string (Some ["e2"; "e3"]);
       item_error string "e4"] = Ok r ∧
    elems (WrappedErrors string r) = ["e1"; "e2"; "e3"; "e4"].
Proof.
  destruct (WrappedErrors_recovers_original_errors string (λ _, None) Nil
              [item_error string "e1";
               item_Diagnostic string (sample_diag string Warning "w" "" None);
               item_multierror string (Some ["e2"; "e3"]);
               item_error string "e4"]
              [["e1"]; []; ["e2"; "e3"]; ["e4"]])
    as (_ & Hrecover).
  apply Hrecover. repeat constructor.
Defined.

Lemma Append_unsupported_shape_witness :
  Append string (λ _, None) Nil
    [item_error string "boom"; item_other string "int"; item_nil string]
  = Panic "can't construct diagnostic(s) from int".
Proof.
  destruct (Append_unsupported_shape_panics string (λ _, None) Nil
              [item_error string "boom"] [item_nil string] "int")
    as (_ & Hfirst).
  apply Hfirst. repeat constructor. discriminate.
Defined.

Lemma Sort_example_witness :
  Sort string "/"
    (slice_of
       [sample_diag string Error "e1" "" (Some (sample_range "/a/b.tf" 10));
        sample_diag string Warning "w" "" None;
        sample_diag string Error "e2" "" (Some (sample_range "/a.tf" 5))])
  = Ok (slice_of
       [sample_diag string Warning "w" "" None;
        sample_diag string Error "e2" "" (Some (sample_range "/a.tf" 5));
        sample_diag string Error "e1" "" (Some (sample_range "/a/b.tf" 10))]).
Proof.
  destruct (Sort_orders_stably string "/") as (_ & Hexample).
  by apply (Hexample _ _ _ (sample_range "/a/b.tf" 10)
              (sample_range "/a.tf" 5)).
Defined.

(** The further properties that have a precondition, at concrete
    collections. *)

Lemma Sort_only_stable_order_witness :
  ∃ sorted,
    Sort string "/"
      (slice_of [sample_diag string Error "e" "" None;
                 sample_diag string Warning "w" "" None]) = Ok sorted ∧
    elems sorted = [sample_diag string Warning "w" "" None;
                    sample_diag string Error "e" "" None].
Proof.
  apply (Sort_only_stable_order string "/"
           (slice_of [sample_diag string Error "e" "" None;
                      sample_diag string Warning "w" "" None])
           [sample_diag string Warning "w" "" None;
            sample_diag string Error "e" "" None]).
  - intros [|[|i]] [|[|j]] x y Hij Hi Hj; simpl in Hi, Hj;
      try lia; try discriminate.
    injection Hi as <-. injection Hj as <-.
    split; [by intros [H _]|by intros H].
  - intros z. cbn [elems]. rewrite !filter_cons, !filter_nil.
    repeat case_decide; try reflexivity; exfalso;
      unfold same_rank, sample_diag in *; simpl in *;
      match goal with
      | Hw : _ = Warning ∧ _, He : _ = Error ∧ _ |- _ =>
          destruct Hw as [Hw _]; destruct He as [He _];
          rewrite Hw in He; discriminate He
      end.
Defined.

Lemma Append_receiver_elems_witness :
  Append string (λ _, None) (slice_of [])
    [item_nil string; item_error string "boom"]
  = Append string (λ _, None) Nil
      [item_nil string; item_error string "boom"].
Proof.
  apply (Append_receiver_elems string (λ _, None) (slice_of []) Nil).
  reflexivity.
Defined.

Lemma Append_loop_never_empty_witness :
  slice_of [sample_diag string Warning "w" "" None] ≠ slice_of [] ∧
  (len (slice_of [sample_diag string Warning "w" "" None]) = 0 →
   slice_of [sample_diag string Warning "w" "" None] = Nil) ∧
  Append string (λ _, None) Nil
    [item_Diagnostics string Nil;
     item_Diagnostic string (sample_diag string Warning "w" "" None)]
  = Ok (slice_of [sample_diag string Warning "w" "" None]).
Proof.
  apply (Append_loop_never_empty string (λ _, None) Nil
           [item_Diagnostics string Nil;
            item_Diagnostic string (sample_diag string Warning "w" "" None)]).
  - discriminate.
  - reflexivity.
Defined.


Lemma Append_HasErrors_witness :
  (HasErrors string
     (slice_of [sample_diag string Warning "w" "" None;
                sample_diag string Error "e" "" None]) = true ↔
   HasErrors string (slice_of [sample_diag string Warning "w" "" None]) = true ∨
   ∃ item l d,
     item ∈ [item_Diagnostic string (sample_diag string Error "e" "" None)] ∧
     Item_diagnostics string (λ _, None) item = Some l ∧
     d ∈ l ∧ Diagnostic_Severity string d = Error) ∧
  (Err string (slice_of [sample_diag string Warning "w" "" None]) ≠ None →
   Err string
     (slice_of [sample_diag string Warning "w" "" None;
                sample_diag string Error "e" "" None]) ≠ None).
Proof.
  apply (Append_HasErrors string (λ _, None)
           (slice_of [sample_diag string Warning "w" "" None])
           [item_Diagnostic string (sample_diag string Error "e" "" None)]).
  reflexivity.
Defined.

Lemma views_hold_diagnostics_witness :
  ErrorView_Diagnostics string
    (NonFatalError string (slice_of [sample_diag string Warning "w" "" None]))
  = slice_of [sample_diag string Warning "w" "" None] ∧
  1 ≤ len (slice_of [sample_diag string Warning "w" "" None]).
Proof.
  destruct (views_hold_diagnostics string id
              (slice_of [sample_diag string Warning "w" "" None])
              (NonFatalError string
                 (slice_of [sample_diag string Warning "w" "" None])))
    as (Hholds & Hlen & _).
  - right. left. reflexivity.
  - split; [exact Hholds|exact Hlen].
Defined.

Lemma messages_show_summary_and_detail_witness :
  diagnosticsAsError_Error string id
    (slice_of [sample_diag string Error "s1" "d1"
                 (Some (sample_range "/a.tf" 1));
               nativeError string "s2"])
  = diagnosticsAsError_Error string id
      (slice_of [sample_diag string Warning "s1" "d1" None;
                 sample_diag string Warning "s2" "" None]).
Proof.
  destruct (messages_show_summary_and_detail string id
              (slice_of [sample_diag string Error "s1" "d1"
                           (Some (sample_range "/a.tf" 1));
                         nativeError string "s2"])
              (slice_of [sample_diag string Warning "s1" "d1" None;
                         sample_diag string Warning "s2" "" None]))
    as [Hfatal _].
  - reflexivity.
  - exact Hfatal.
Defined.

Lemma sortDiagnostics_Swap_exchanges_witness :
  sortDiagnostics_Swap string
    [sample_diag string Error "e" "" None;
     sample_diag string Warning "w" "" None] 1 0
  = Ok [sample_diag string Warning "w" "" None;
        sample_diag string Error "e" "" None] ∧
  sortDiagnostics_Swap string
    [sample_diag string Warning "w" "" None;
     sample_diag string Error "e" "" None] 0 1
  = Ok [sample_diag string Error "e" "" None;
        sample_diag string Warning "w" "" None].
Proof.
  destruct (sortDiagnostics_Swap_exchanges string
              [sample_diag string Error "e" "" None;
               sample_diag string Warning "w" "" None] 0 1)
    as (_ & _ & Hswap).
  destruct (Hswap [sample_diag string Warning "w" "" None;
                   sample_diag string Error "e" "" None] eq_refl)
    as (_ & _ & _ & _ & _ & Hsym & Hback).
  split; [exact Hsym|exact Hback].
Defined.

Lemma Append_multierror_causes_witness :
  Append string (λ _, None) Nil [item_multierror string (Some ["e1"; "e2"])]
  = Append string (λ _, None) Nil
      [item_error string "e1"; item_error string "e2"].
Proof.
  destruct (Append_multierror_causes string (λ _, None) Nil ["e1"; "e2"] [] [])
    as [_ Herrors].
  apply Herrors. repeat constructor.
Defined.

Lemma Err_round_trip_witness :
  Append string (λ _, None) Nil
    [error_item string
       (Err string (slice_of [sample_diag string Warning "w" "" None;
                              sample_diag string Error "e" "" None]))]
  = Ok (slice_of [sample_diag string Warning "w" "" None;
                  sample_diag string Error "e" "" None]) ∧
  Append string (λ _, None) Nil
    [error_item string
       (Err string (slice_of [sample_diag string Warning "w" "" None]))]
  = Ok Nil.
Proof.
  destruct (Err_round_trip string (λ _, None) Nil
              (slice_of [sample_diag string Warning "w" "" None;
                         sample_diag string Error "e" "" None]))
    as [Hkept _].
  destruct (Err_round_trip string (λ _, None) Nil
              (slice_of [sample_diag string Warning "w" "" None]))
    as [_ Hlost].
  split.
  - apply Hkept. reflexivity.
  - apply Hlost. reflexivity.
Defined.

Lemma Less_rune_other_severity_witness :
  Less_rune "/" (Severity_rune Error) 0
    {| Subject := Some (sample_range "/a.tf" 1); Context := None |}
    {| Subject := None; Context := None |} = false ∧
  Less_rune "/" 0 (Severity_rune Error)
    {| Subject := None; Context := None |}
    {| Subject := Some (sample_range "/a.tf" 5); Context := None |} = false ∧
  Less_rune "/" (Severity_rune Error) (Severity_rune Error)
    {| Subject := Some (sample_range "/a.tf" 1); Context := None |}
    {| Subject := Some (sample_range "/a.tf" 5); Context := None |} = true.
Proof.
  destruct (Less_rune_other_severity string "/" 0
              {| Subject := Some (sample_range "/a.tf" 1); Context := None |}
              {| Subject := Some (sample_range "/a.tf" 5); Context := None |}
              {| Subject := None; Context := None |})
    as (_ & Hbefore & _ & Hafter & _ & _).
  - intros H. vm_compute in H. discriminate H.
  - intros H. vm_compute in H. discriminate H.
  - split_and!; [exact Hbefore|exact Hafter|reflexivity].
Defined.
